(** * dedupe_flatten: a shallow embedding and its verification

    The program flattens a folder tree into its root folder and deduplicates
    files by content.  It runs three passes over a live directory tree:
    pass 1 moves every second and later copy of a content into
    [root/_duplicates], pass 2 moves what is left in subfolders into the root,
    pass 3 removes the folders left empty.

    Layout of this development:
    - [PosixPath]: the string functions of [os.path] the program calls
      ([splitext], [join], [normpath], [abspath], [commonpath]) and
      [is_within] as the source writes it, on path strings;
    - the file system as a finite map from absolute, normalised paths (lists
      of components) to nodes, the primitives the program calls on it
      ([os.walk], [shutil.move], [os.makedirs], [os.rmdir], ...), and [main];
    - the properties. *)

From Stdlib Require Import Ascii.
From stdpp Require Import gmap strings list fin_maps sorting pretty.

(** ** Part I: the path functions on strings *)

Module PosixPath.

Definition sep : ascii := "/"%char.
Definition extsep : ascii := "."%char.

(** [s.split("/")]: never empty, one more piece than there are
    separators. *)
Fixpoint split (s : string) : list string :=
  match s with
  | EmptyString => [EmptyString]
  | String c s' =>
      if Ascii.eqb c sep then EmptyString :: split s'
      else match split s' with
           | h :: t => String c h :: t
           | [] => [String c EmptyString]
           end
  end.

(** ["/".join(l)] *)
Fixpoint join (l : list string) : string :=
  match l with
  | [] => EmptyString
  | x :: l' =>
      match l' with
      | [] => x
      | _ :: _ => x +:+ String sep (join l')
      end
  end.

Definition startswith (s p : string) : bool := String.prefix p s.

Fixpoint endswith_sep (s : string) : bool :=
  match s with
  | EmptyString => false
  | String c EmptyString => Ascii.eqb c sep
  | String _ s' => endswith_sep s'
  end.

Definition isabs (s : string) : bool := startswith s "/".

(** [os.path.join(a, b)] for two arguments. *)
Definition path_join (a b : string) : string :=
  if startswith b "/" then b
  else if bool_decide (a = "") || endswith_sep a then a +:+ b
  else a +:+ String sep b.

(** POSIX keeps exactly two leading slashes apart; three or more count as
    one. *)
Definition initial_slashes (path : string) : nat :=
  if startswith path "/" then
    if startswith path "//" && negb (startswith path "///") then 2 else 1
  else 0.

Definition slashes (n : nat) : string :=
  match n with 0 => "" | 1 => "/" | _ => "//" end.

(** One round of the loop of [normpath] over the pieces of the path:
    [new_comps] is the list built so far. *)
Definition norm_step (initial : nat) (new_comps : list string) (comp : string)
  : list string :=
  if bool_decide (comp = "" ∨ comp = ".") then new_comps
  else if bool_decide (comp ≠ ".."
                       ∨ (initial = 0 ∧ new_comps = [])
                       ∨ (new_comps ≠ [] ∧ last new_comps = Some ".."))
       then new_comps ++ [comp]
       else removelast new_comps.

Definition normpath (path : string) : string :=
  if bool_decide (path = "") then "."
  else
    let initial := initial_slashes path in
    let comps := foldl (norm_step initial) [] (split path) in
    let path' := slashes initial +:+ join comps in
    if bool_decide (path' = "") then "." else path'.

(** [os.path.abspath]; [cwd] is what [os.getcwd()] returns. *)
Definition abspath (cwd path : string) : string :=
  if isabs path then normpath path else normpath (path_join cwd path).

(** The pieces [commonpath] compares: empty pieces and ["."] dropped. *)
Definition components (s : string) : list string :=
  filter (λ c, c ≠ "" ∧ c ≠ ".") (split s).

Fixpoint common_prefix (p q : list string) : list string :=
  match p, q with
  | a :: p', b :: q' =>
      if bool_decide (a = b) then a :: common_prefix p' q' else []
  | _, _ => []
  end.

(** [os.path.commonpath]; [None] is its [ValueError] (no path, or absolute
    and relative paths mixed).  Python takes the prefix common to the
    smallest and the largest piece list, which is the prefix common to
    all. *)
Definition commonpath (paths : list string) : option string :=
  match paths with
  | [] => None
  | p :: ps =>
      if forallb (λ q, Bool.eqb (isabs q) (isabs p)) ps then
        let common :=
          foldl (λ acc q, common_prefix acc (components q)) (components p) ps in
        Some ((if isabs p then "/" else "") +:+ join common)
      else None
  end.

(** [is_within(path, folder)] of the source; [None] when [commonpath]
    raises. *)
Definition is_within (cwd path folder : string) : option bool :=
  let path_abs := abspath cwd path in
  let folder_abs := abspath cwd folder in
  c ← commonpath [path_abs; folder_abs];
  Some (bool_decide (c = folder_abs)).

(** [rfind]: index of the last occurrence, [-1] when there is none. *)
Fixpoint rfind_from (c : ascii) (s : string) (i last : Z) : Z :=
  match s with
  | EmptyString => last
  | String d s' => rfind_from c s' (i + 1) (if Ascii.eqb d c then i else last)
  end.
Definition rfind (c : ascii) (s : string) : Z := rfind_from c s 0 (-1).

Fixpoint str_take (n : nat) (s : string) : string :=
  match n, s with
  | S n', String c s' => String c (str_take n' s')
  | _, _ => EmptyString
  end.
Fixpoint str_drop (n : nat) (s : string) : string :=
  match n, s with
  | S n', String _ s' => str_drop n' s'
  | _, _ => s
  end.

(** The [while] loop of [_splitext]: is there a character other than a
    dot in [p[i:dot]]?  [fuel] bounds the rounds by [dot - i]. *)
Fixpoint has_stem (p : string) (i dot : Z) (fuel : nat) : bool :=
  match fuel with
  | 0 => false
  | S fuel' =>
      if (i <? dot)%Z then
        match String.get (Z.to_nat i) p with
        | Some c => if Ascii.eqb c extsep then has_stem p (i + 1) dot fuel' else true
        | None => true
        end
      else false
  end.

(** [os.path.splitext]: the extension starts at the last dot of the last
    component, leading dots of that component apart. *)
Definition splitext (p : string) : string * string :=
  let sepIndex := rfind sep p in
  let dotIndex := rfind extsep p in
  if (sepIndex <? dotIndex)%Z && has_stem p (sepIndex + 1) dotIndex (String.length p)
  then (str_take (Z.to_nat dotIndex) p, str_drop (Z.to_nat dotIndex) p)
  else (p, EmptyString).

End PosixPath.

(** ** Part II: the file system and the program

    An absolute, normalised path is the list of its components:
    [/srv/data] is [["srv"; "data"]], and [os.path.join(dirpath, name)]
    for a name taken from a directory listing is [dirpath ++ [name]].
    [main] starts by replacing its argument with [os.path.abspath] of it
    and builds every other path by joining listed names to it, so every
    path it handles has this form and [os.path.abspath] leaves it as it
    is.  (A root spelled with exactly two leading slashes, which
    [normpath] keeps, is not represented.) *)

Abbreviation path := (list string) (only parsing).

(** A regular file with its bytes, or a directory.  The children of a
    directory are the entries of the map one component longer. *)
Inductive node :=
  | File (data : string)
  | Dir.

#[global] Instance node_eq_dec : EqDecision node.
Proof. solve_decision. Defined.

Abbreviation fsys := (gmap (list string) node) (only parsing).

(** The operations a run performs on the file system, in order.  The
    failed ones are recorded as well: they are the [OSError]s the program
    catches. *)
Inductive event :=
  | EvMkdir (p : list string)
  | EvScandir (p : list string)
  | EvHash (p : list string)
  | EvHashFail (p : list string)
  | EvMove (src dst : list string)
  | EvMoveFail (src dst : list string)
  | EvRmdir (p : list string)
  | EvRmdirFail (p : list string).

#[global] Instance event_eq_dec : EqDecision event.
Proof. solve_decision. Defined.

(** The exceptions no handler of the program catches. *)
Inductive exn :=
  | RuntimeError      (* raised by [unique_target_path] *)
  | FileExistsError.  (* raised by [os.makedirs] on a regular file *)

#[global] Instance exn_eq_dec : EqDecision exn.
Proof. solve_decision. Defined.

(** What a call guarded by [try: ... except (OSError, PermissionError)]
    gives. *)
Inductive result (A : Type) :=
  | Ok (a : A)
  | OSError.
Arguments Ok {A} a.
Arguments OSError {A}.

(** The state [main] threads: the file system, the dictionary
    [seen_hashes] of pass 1, and the record of operations. *)
Record state := State {
  st_fs : gmap (list string) node;
  st_seen : gmap string (list string);
  st_log : list event
}.

(** How a computation ends: normally, by an uncaught exception, or
    outside what the model covers ([os.walk] deeper than the fuel, a
    directory handed to [shutil.move]); [main] never ends the last way
    (see [main_not_stuck]). *)
Inductive outcome (A : Type) :=
  | Done (a : A) (s : state)
  | Raised (e : exn) (s : state)
  | Stuck (s : state).
Arguments Done {A} a s.
Arguments Raised {A} e s.
Arguments Stuck {A} s.

Definition final_state {A} (o : outcome A) : state :=
  match o with Done _ s | Raised _ s | Stuck s => s end.

Definition M (A : Type) : Type := state → outcome A.

#[global] Instance M_ret : MRet M := λ A a s, Done a s.
#[global] Instance M_bind : MBind M := λ A B f m s,
  match m s with
  | Done a s' => f a s'
  | Raised e s' => Raised e s'
  | Stuck s' => Stuck s'
  end.

Definition raise {A} (e : exn) : M A := λ s, Raised e s.
Definition stuck {A} : M A := λ s, Stuck s.
Definition get_fs : M (gmap (list string) node) := λ s, Done (st_fs s) s.
Definition put_fs (fs : gmap (list string) node) : M unit :=
  λ s, Done tt (State fs (st_seen s) (st_log s)).
Definition get_seen : M (gmap string (list string)) := λ s, Done (st_seen s) s.
Definition put_seen (seen : gmap string (list string)) : M unit :=
  λ s, Done tt (State (st_fs s) seen (st_log s)).
Definition emit (e : event) : M unit :=
  λ s, Done tt (State (st_fs s) (st_seen s) (st_log s ++ [e])).

(** A [for] loop over a list. *)
Fixpoint for_each {A} (l : list A) (f : A → M unit) : M unit :=
  match l with
  | [] => mret tt
  | x :: l' => f x ;; for_each l' f
  end.

(** What the run cannot control: the working directory, the digest, which
    reads, moves and removals the system refuses, and the order in which a
    directory lists its entries (by increasing rank). *)
Record env := Env {
  cwd : string;
  sha256 : string → string;
  read_fails : list string → bool;
  move_fails : list string → list string → bool;
  rmdir_fails : list string → bool;
  scan_rank : list string → string → nat
}.

Definition path_exists (fs : gmap (list string) node) (p : path) : bool :=
  bool_decide (is_Some (fs !! p)).
Definition isdir (fs : gmap (list string) node) (p : path) : bool :=
  bool_decide (fs !! p = Some Dir).
Definition dirname (p : path) : path := removelast p.
Definition basename (p : path) : string := default "" (last p).

(** [os.path.commonpath] of two normalised absolute paths. *)
Definition commonpath (p q : path) : path := PosixPath.common_prefix p q.

(** [is_within(path, folder)] on normalised absolute paths. *)
Definition is_within (p folder : path) : bool :=
  bool_decide (commonpath p folder = folder).

(** [child_of top p = Some n] when [p] is [top ++ [n]]. *)
Fixpoint child_of (top p : path) : option string :=
  match top, p with
  | [], [n] => Some n
  | a :: top', b :: p' => if bool_decide (a = b) then child_of top' p' else None
  | _, _ => None
  end.

Definition raw_entries (fs : gmap (list string) node) (top : path)
  : list (string * node) :=
  omap (λ kv, n ← child_of top kv.1; Some (n, kv.2)) (map_to_list fs).

Definition is_dir_entry (e : string * node) : bool :=
  match e.2 with Dir => true | File _ => false end.

Section Program.
Context (E : env).

Definition rank_le (top : path) (a b : string * node) : Prop :=
  scan_rank E top a.1 ≤ scan_rank E top b.1.

#[local] Instance rank_le_dec top a b : Decision (rank_le top a b).
Proof. unfold rank_le. apply _. Defined.

(** The entries of directory [top], in the order the system lists them. *)
Definition entries (fs : fsys) (top : path) : list (string * node) :=
  merge_sort (rank_le top) (raw_entries fs top).

(** [os.scandir(top)] as [os.walk] reads it: the names of the
    directories and of the other entries; [None] is the [OSError] that
    [os.walk] swallows (no such directory). *)
Definition scandir (fs : fsys) (top : path) : option (list string * list string) :=
  if isdir fs top then
    let es := entries fs top in
    Some ((filter (λ e, is_dir_entry e = true) es).*1,
          (filter (λ e, is_dir_entry e = false) es).*1)
  else None.

(** [os.listdir(p)] *)
Definition listdir (p : path) : M (result (list string)) := λ s,
  if isdir (st_fs s) p then Done (Ok (entries (st_fs s) p).*1) s
  else Done OSError s.

(** [os.walk(top)], top-down.  [body] is the loop body: it receives
    [dirpath], [dirnames] and [filenames] and returns [dirnames] as it
    leaves that list, which is what [os.walk] descends into, one
    directory after the other, each listed when its turn comes. *)
Fixpoint walk_topdown (fuel : nat)
    (body : path → list string → list string → M (list string))
    (top : path) : M unit := λ s,
  match scandir (st_fs s) top with
  | None => Done tt s
  | Some (dirs, nondirs) =>
      match fuel with
      | 0 => Stuck s
      | S fuel' =>
          (emit (EvScandir top);;
           dirs' ← body top dirs nondirs;
           for_each dirs' (λ d, walk_topdown fuel' body (top ++ [d]))) s
      end
  end.

(** [os.walk(top, topdown=False)]: a directory is listed on the way
    down and handed to the loop body after its subdirectories. *)
Fixpoint walk_bottomup (fuel : nat)
    (body : path → list string → list string → M unit)
    (top : path) : M unit := λ s,
  match scandir (st_fs s) top with
  | None => Done tt s
  | Some (dirs, nondirs) =>
      match fuel with
      | 0 => Stuck s
      | S fuel' =>
          (emit (EvScandir top);;
           for_each dirs (λ d, walk_bottomup fuel' body (top ++ [d]));;
           body top dirs nondirs) s
      end
  end.

(** [hash_file(path)]: the digest of the bytes of a readable regular
    file.  Reading block by block and feeding an incremental digest gives
    the digest of the whole content. *)
Definition hash_file (p : path) : M (result string) := λ s,
  match st_fs s !! p with
  | Some (File data) =>
      if read_fails E p then (emit (EvHashFail p);; mret OSError) s
      else (emit (EvHash p);; mret (Ok (sha256 E data))) s
  | _ => (emit (EvHashFail p);; mret OSError) s
  end.

(** The [for i in range(1, max_tries + 1)] loop of [unique_target_path]. *)
Fixpoint first_free (fs : fsys) (directory : path) (base suffix ext : string)
    (range : list nat) : option path :=
  match range with
  | [] => None
  | i :: range' =>
      let candidate := directory ++ [base +:+ suffix +:+ "_" +:+ pretty i +:+ ext] in
      if negb (path_exists fs candidate) then Some candidate
      else first_free fs directory base suffix ext range'
  end.

(** [unique_target_path(directory, filename, suffix, max_tries)];
    [None] is [raise RuntimeError]. *)
Definition unique_target_path (fs : fsys) (directory : path)
    (filename suffix : string) (max_tries : nat) : option path :=
  let '(base, ext) := PosixPath.splitext filename in
  let candidate := directory ++ [base +:+ suffix +:+ ext] in
  if negb (path_exists fs candidate) then Some candidate
  else first_free fs directory base suffix ext (seq 1 max_tries).

Definition max_tries_default : nat := 100 * 100.

(** The call of [unique_target_path] in [main], with the default bound:
    its [RuntimeError] is raised to whoever called. *)
Definition unique_target (directory : path) (filename suffix : string)
  : M path := λ s,
  match unique_target_path (st_fs s) directory filename suffix max_tries_default with
  | Some target => Done target s
  | None => Raised RuntimeError s
  end.

(** [os.rename(src, dst)] for a regular file [src] with bytes [data]. *)
Definition rename_file (src dst : path) (data : string) : M (result unit) :=
  fs ← get_fs;
  put_fs (<[dst := File data]> (delete src fs));;
  emit (EvMove src dst);;
  mret (Ok tt).

(** [shutil.move(src, dst)] for a regular file [src]: into [dst] when
    that is a directory (refused when the name is taken there), over
    [dst] when that is a file, and to the name [dst] otherwise.  Moving a
    directory is not modelled: [main] passes files only. *)
Definition shutil_move (src dst : path) : M (result unit) := λ s,
  let fs := st_fs s in
  let fail : M (result unit) := emit (EvMoveFail src dst);; mret OSError in
  match fs !! src with
  | Some (File data) =>
      if move_fails E src dst then fail s
      else match fs !! dst with
           | Some Dir =>
               let real_dst := dst ++ [basename src] in
               if path_exists fs real_dst then fail s
               else rename_file src real_dst data s
           | Some (File _) => rename_file src dst data s
           | None =>
               if isdir fs (dirname dst) then rename_file src dst data s
               else fail s
           end
  | Some Dir => Stuck s
  | None => fail s
  end.

(** [os.makedirs(p, exist_ok=True)] where the parent of [p] is a
    directory, as it is in [main]. *)
Definition makedirs (p : path) : M unit := λ s,
  match st_fs s !! p with
  | Some Dir => Done tt s
  | Some (File _) => Raised FileExistsError s
  | None =>
      if isdir (st_fs s) (dirname p)
      then (put_fs (<[p := Dir]> (st_fs s));; emit (EvMkdir p)) s
      else Stuck s
  end.

(** [os.rmdir(p)]: only an empty directory goes. *)
Definition rmdir (p : path) : M (result unit) := λ s,
  let fail : M (result unit) := emit (EvRmdirFail p);; mret OSError in
  if isdir (st_fs s) p then
    match entries (st_fs s) p with
    | [] =>
        if rmdir_fails E p then fail s
        else (put_fs (delete p (st_fs s));; emit (EvRmdir p);; mret (Ok tt)) s
    | _ :: _ => fail s
    end
  else fail s.

(** *** [main] *)

(** One round of the inner loop of pass 1: a file whose digest was
    seen before goes to [_duplicates] under a free name ending in
    [_dup]; the first file of a digest is recorded and stays. *)
Definition dedup_file (duplicates_dir dirpath : path) (filename : string)
  : M unit :=
  let full_path := dirpath ++ [filename] in
  if is_within full_path duplicates_dir then mret tt
  else
    r ← hash_file full_path;
    match r with
    | OSError => mret tt
    | Ok file_hash =>
        seen_hashes ← get_seen;
        if bool_decide (is_Some (seen_hashes !! file_hash)) then
          target ← unique_target duplicates_dir filename "_dup";
          shutil_move full_path target;;
          mret tt
        else put_seen (<[file_hash := full_path]> seen_hashes)
    end.

(** The body of the loop of pass 1: [_duplicates] is taken out of
    [dirnames], so [os.walk] does not enter it. *)
Definition pass1_body (duplicates_dir dirpath : path)
    (dirnames filenames : list string) : M (list string) :=
  let dirnames' := filter (λ d, dirpath ++ [d] ≠ duplicates_dir) dirnames in
  for_each filenames (dedup_file duplicates_dir dirpath);;
  mret dirnames'.

(** One round of the inner loop of pass 2: the file goes to the root,
    under a free name when its own is taken there. *)
Definition flatten_file (root duplicates_dir dirpath : path) (filename : string)
  : M unit :=
  let full_path := dirpath ++ [filename] in
  if is_within full_path duplicates_dir then mret tt
  else
    let target := root ++ [filename] in
    if bool_decide (full_path = target) then mret tt
    else
      fs ← get_fs;
      target ← (if path_exists fs target then unique_target root filename ""
                else mret target);
      shutil_move full_path target;;
      mret tt.

(** The body of the loop of pass 2.  The root, [_duplicates] and what
    lies in it are skipped by [continue]: [dirnames] is left as it is. *)
Definition pass2_body (root duplicates_dir dirpath : path)
    (dirnames filenames : list string) : M (list string) :=
  if bool_decide (dirpath = root) then mret dirnames
  else if bool_decide (dirpath = duplicates_dir) then mret dirnames
  else if is_within dirpath duplicates_dir then mret dirnames
  else
    for_each filenames (flatten_file root duplicates_dir dirpath);;
    mret dirnames.

(** The body of the loop of pass 3: an empty directory is removed; an
    [OSError] of [os.listdir] or [os.rmdir] is passed over. *)
Definition pass3_body (root duplicates_dir dirpath : path)
    (dirnames filenames : list string) : M unit :=
  if bool_decide (dirpath = root ∨ dirpath = duplicates_dir) then mret tt
  else if is_within dirpath duplicates_dir then mret tt
  else
    r ← listdir dirpath;
    match r with
    | Ok [] => rmdir dirpath;; mret tt
    | _ => mret tt
    end.

(** The longest path of the file system bounds the depth [os.walk]
    reaches; no pass makes a path longer than two components below the
    root. *)
Definition fs_height (fs : fsys) : nat :=
  max_list (length <$> (map_to_list fs).*1).
Definition walk_fuel (fs : fsys) : nat := fs_height fs + 3.

Definition quarantine (root : path) : path := root ++ ["_duplicates"].

(** Pass 1 ([Deduplicator]), pass 2 ([Flattener]) and pass 3 ([Pruner]):
    each is one [os.walk] of the root. *)
Definition deduplicate (fuel : nat) (root : path) : M unit :=
  walk_topdown fuel (pass1_body (quarantine root)) root.
Definition flatten (fuel : nat) (root : path) : M unit :=
  walk_topdown fuel (pass2_body root (quarantine root)) root.
Definition prune (fuel : nat) (root : path) : M unit :=
  walk_bottomup fuel (pass3_body root (quarantine root)) root.

(** [main(root)], from line 59 on: [root] is the absolute path that line
    57 computed.  The result is the value [main] returns.  The
    dictionary [seen_hashes] starts empty before pass 1. *)
Definition main (root : path) : M Z :=
  fs ← get_fs;
  if negb (isdir fs root) then mret 2%Z
  else
    let fuel := walk_fuel fs in
    makedirs (quarantine root);;
    put_seen ∅;;
    deduplicate fuel root;;
    flatten fuel root;;
    prune fuel root;;
    mret 0%Z.


(** The exit status of the process: the argument of [sys.exit], or 1
    after an uncaught exception. *)
Definition exit_status (o : outcome Z) : option Z :=
  match o with
  | Done n _ => Some n
  | Raised _ _ => Some 1%Z
  | Stuck _ => None
  end.

(** A run on file system [fs]. *)
Definition initial (fs : fsys) : state := State fs ∅ [].
Definition run (root : path) (fs : fsys) : outcome Z := main root (initial fs).

End Program.

(** ** Part III: what the operations of a run do to the file system

    The meaning of the record of operations, used to state what a run
    does: [apply_event] is the change one recorded operation makes, with
    the conditions under which the run performs it ([None] when they do
    not hold). *)

Definition apply_event (e : event) (fs : fsys) : option fsys :=
  match e with
  | EvMkdir p =>
      if bool_decide (fs !! p = None) && isdir fs (dirname p)
      then Some (<[p := Dir]> fs) else None
  | EvMove src dst =>
      match fs !! src with
      | Some (File data) =>
          if bool_decide (fs !! dst = None) && isdir fs (dirname dst)
          then Some (<[dst := File data]> (delete src fs)) else None
      | _ => None
      end
  | EvRmdir p =>
      if isdir fs p && bool_decide (raw_entries fs p = [])
      then Some (delete p fs) else None
  | EvScandir _ | EvHash _ | EvHashFail _ | EvMoveFail _ _ | EvRmdirFail _ =>
      Some fs
  end.

Fixpoint replay (l : list event) (fs : fsys) : option fsys :=
  match l with
  | [] => Some fs
  | e :: l' => fs' ← apply_event e fs; replay l' fs'
  end.


(** The number of regular files with bytes [data] in the region [P]. *)
Definition count_files (P : path → bool) (data : string) (fs : fsys) : nat :=
  length (filter (λ kv, P kv.1 = true ∧ kv.2 = File data) (map_to_list fs)).



(** Inside the root and outside [_duplicates]. *)
Definition live (root p : path) : Prop :=
  root `prefix_of` p ∧ ¬ quarantine root `prefix_of` p.
Definition liveb (root p : path) : bool :=
  is_within p root && negb (is_within p (quarantine root)).
Definition in_quarantine (root p : path) : bool := is_within p (quarantine root).

(** ** Part III: paths and directory listings *)

Lemma common_prefix_eq_r (p f : list string) :
  PosixPath.common_prefix p f = f ↔ f `prefix_of` p.
Proof.
  revert f. induction p as [|a p IH]; intros [|b f]; simpl.
  - split; [intros _; apply prefix_nil | done].
  - split; [done | intros H; by apply prefix_nil_not in H].
  - split; [intros _; apply prefix_nil | done].
  - case_bool_decide as Hab.
    + subst b. split.
      * intros [= H]. apply prefix_cons. by apply IH.
      * intros H. f_equal. apply IH. by eapply prefix_cons_inv_2.
    + split; [done |]. intros H. apply prefix_cons_inv_1 in H. congruence.
Qed.

Lemma is_within_true (p folder : list string) :
  is_within p folder = true ↔ folder `prefix_of` p.
Proof.
  unfold is_within, commonpath. rewrite bool_decide_eq_true.
  apply common_prefix_eq_r.
Qed.

Lemma is_within_false (p folder : list string) :
  is_within p folder = false ↔ ¬ folder `prefix_of` p.
Proof.
  rewrite <- is_within_true. destruct (is_within p folder); naive_solver.
Qed.

Lemma child_of_Some (top p : list string) (n : string) :
  child_of top p = Some n ↔ p = top ++ [n].
Proof.
  revert p. induction top as [|a top IH]; intros p; simpl.
  - destruct p as [|b [|c p]]; naive_solver.
  - destruct p as [|b p]; [naive_solver|].
    case_bool_decide; [subst; rewrite IH|]; naive_solver.
Qed.

Lemma elem_of_raw_entries (fs : gmap (list string) node) top n nd :
  (n, nd) ∈ raw_entries fs top ↔ fs !! (top ++ [n]) = Some nd.
Proof.
  unfold raw_entries. rewrite list_elem_of_omap. split.
  - intros [[p x] [Hin Hc]]. simpl in Hc.
    destruct (child_of top p) as [m|] eqn:Hm; simplify_eq/=.
    apply child_of_Some in Hm. subst p. by apply elem_of_map_to_list in Hin.
  - intros H. exists (top ++ [n], nd). split; [by apply elem_of_map_to_list|].
    simpl. by rewrite (proj2 (child_of_Some top (top ++ [n]) n) eq_refl).
Qed.

Lemma NoDup_raw_entries (fs : gmap (list string) node) top :
  NoDup (raw_entries fs top).*1.
Proof.
  unfold raw_entries.
  pose proof (NoDup_fst_map_to_list fs) as Hnd.
  induction (map_to_list fs) as [|[p x] l IH]; simpl; [constructor|].
  apply NoDup_cons in Hnd as [Hp Hnd]. specialize (IH Hnd).
  destruct (child_of top p) as [m|] eqn:Hm; simpl; [|done].
  apply child_of_Some in Hm. subst p. constructor; [|done].
  intros Hin. apply Hp. apply list_elem_of_fmap in Hin as [[m' y] [-> Hin]].
  apply list_elem_of_omap in Hin as [[p' z] [Hin Hc]]. simpl in *.
  destruct (child_of top p') as [m''|] eqn:Hm'; simplify_eq/=.
  apply child_of_Some in Hm'. subst p'.
  apply list_elem_of_fmap. by exists (top ++ [m'], y).
Qed.

Section Listing.
Context (E : env).

Lemma entries_perm (fs : gmap (list string) node) top :
  entries E fs top ≡ₚ raw_entries fs top.
Proof. apply merge_sort_Permutation. Qed.

Lemma elem_of_entries (fs : gmap (list string) node) top n nd :
  (n, nd) ∈ entries E fs top ↔ fs !! (top ++ [n]) = Some nd.
Proof. by rewrite entries_perm, elem_of_raw_entries. Qed.

Lemma NoDup_entries (fs : gmap (list string) node) top :
  NoDup (entries E fs top).*1.
Proof. rewrite entries_perm. apply NoDup_raw_entries. Qed.

Lemma entries_nil (fs : gmap (list string) node) top :
  entries E fs top = [] ↔ ∀ n, fs !! (top ++ [n]) = None.
Proof.
  split.
  - intros H n. destruct (fs !! (top ++ [n])) as [nd|] eqn:Hn; [|done].
    apply elem_of_entries in Hn. rewrite H in Hn. by apply elem_of_nil in Hn.
  - intros H. destruct (entries E fs top) as [|[n nd] l] eqn:Hl; [done|].
    assert ((n, nd) ∈ entries E fs top) as Hin by (rewrite Hl; left).
    apply elem_of_entries in Hin. by rewrite H in Hin.
Qed.

Lemma isdir_true (fs : gmap (list string) node) p :
  isdir fs p = true ↔ fs !! p = Some Dir.
Proof. unfold isdir. by rewrite bool_decide_eq_true. Qed.

Lemma path_exists_true (fs : gmap (list string) node) p :
  path_exists fs p = true ↔ is_Some (fs !! p).
Proof. unfold path_exists. by rewrite bool_decide_eq_true. Qed.

Lemma path_exists_false (fs : gmap (list string) node) p :
  path_exists fs p = false ↔ fs !! p = None.
Proof.
  unfold path_exists. rewrite bool_decide_eq_false.
  by rewrite <- eq_None_not_Some.
Qed.

(** What a successful listing says about the file system. *)
Lemma scandir_Some (fs : gmap (list string) node) top dirs nondirs :
  scandir E fs top = Some (dirs, nondirs) →
  fs !! top = Some Dir
  ∧ (∀ n, n ∈ dirs ↔ fs !! (top ++ [n]) = Some Dir)
  ∧ (∀ n, n ∈ nondirs ↔ ∃ c, fs !! (top ++ [n]) = Some (File c))
  ∧ NoDup dirs ∧ NoDup nondirs.
Proof.
  unfold scandir. destruct (isdir fs top) eqn:Hd; [|done].
  intros [= <- <-]. apply isdir_true in Hd. split; [done|].
  pose proof (NoDup_entries fs top) as Hnd.
  split_and!.
  - intros n. rewrite list_elem_of_fmap. split.
    + intros [[m nd] [-> Hin]]. apply list_elem_of_filter in Hin as [Hk Hin].
      apply elem_of_entries in Hin. destruct nd; simplify_eq/=. done.
    + intros H. exists (n, Dir). split; [done|].
      apply list_elem_of_filter. split; [done|]. by apply elem_of_entries.
  - intros n. rewrite list_elem_of_fmap. split.
    + intros [[m nd] [-> Hin]]. apply list_elem_of_filter in Hin as [Hk Hin].
      apply elem_of_entries in Hin. destruct nd; simplify_eq/=. eauto.
    + intros [c H]. exists (n, File c). split; [done|].
      apply list_elem_of_filter. split; [done|]. by apply elem_of_entries.
  - revert Hnd. generalize (entries E fs top). intros l. induction l as [|[m nd] l IH]; simpl; [constructor|].
    intros Hnd. apply NoDup_cons in Hnd as [Hm Hnd]. rewrite filter_cons.
    case_decide; simpl; [|by apply IH]. constructor; [|by apply IH].
    intros Hin. apply Hm. apply list_elem_of_fmap in Hin as [[m' y] [-> Hin]].
    apply list_elem_of_filter in Hin as [_ Hin]. apply list_elem_of_fmap. by exists (m', y).
  - revert Hnd. generalize (entries E fs top). intros l. induction l as [|[m nd] l IH]; simpl; [constructor|].
    intros Hnd. apply NoDup_cons in Hnd as [Hm Hnd]. rewrite filter_cons.
    case_decide; simpl; [|by apply IH]. constructor; [|by apply IH].
    intros Hin. apply Hm. apply list_elem_of_fmap in Hin as [[m' y] [-> Hin]].
    apply list_elem_of_filter in Hin as [_ Hin]. apply list_elem_of_fmap. by exists (m', y).
Qed.

Lemma scandir_None (fs : gmap (list string) node) top :
  scandir E fs top = None ↔ fs !! top ≠ Some Dir.
Proof.
  unfold scandir. destruct (isdir fs top) eqn:Hd.
  - apply isdir_true in Hd. naive_solver.
  - split; [|done]. intros _ H. apply isdir_true in H. congruence.
Qed.
End Listing.

(** ** Part IV: reasoning about computations *)

(** [post Q R K o]: the outcome [o] satisfies [Q] when it is a result,
    [R] when it is an exception, [K] when the model gave up. *)
Definition post {A} (Q : A → state → Prop) (R K : state → Prop)
    (o : outcome A) : Prop :=
  match o with
  | Done a s => Q a s
  | Raised _ s => R s
  | Stuck s => K s
  end.

Lemma post_mono {A} (Q Q' : A → state → Prop) (R R' K K' : state → Prop) o :
  (∀ a s, Q a s → Q' a s) → (∀ s, R s → R' s) → (∀ s, K s → K' s) →
  post Q R K o → post Q' R' K' o.
Proof. destruct o; simpl; auto. Qed.

Lemma post_bind {A B} (m : M A) (k : A → M B) Q R K s :
  post (λ a s', post Q R K (k a s')) R K (m s) → post Q R K ((m ≫= k) s).
Proof. unfold mbind, M_bind. destruct (m s); simpl; auto. Qed.

Lemma post_ret {A} (a : A) (Q : A → state → Prop) R K s :
  Q a s → post Q R K ((mret a : M A) s).
Proof. done. Qed.

Lemma bind_Done {A B} (m : M A) (k : A → M B) s b s' :
  (m ≫= k) s = Done b s' ↔ ∃ a s1, m s = Done a s1 ∧ k a s1 = Done b s'.
Proof.
  unfold mbind, M_bind. destruct (m s) as [a s1|e s1|s1]; naive_solver.
Qed.

Lemma for_each_post {A} (l : list A) (f : A → M unit)
    (I R K : state → Prop) :
  (∀ x s, x ∈ l → I s → post (λ _, I) R K (f x s)) →
  ∀ s, I s → post (λ _, I) R K (for_each l f s).
Proof.
  induction l as [|x l IH]; intros Hf s HI; simpl; [done|].
  apply post_bind. eapply post_mono; [| | |apply Hf; [left|done]]; simpl; auto.
  intros _ s' HI'. apply IH; [|done]. intros y s'' Hy. apply Hf. by right.
Qed.

Section WalkRules.
Context (E : env).

(** The rule for [os.walk], top-down: [I] holds throughout when each
    round of the loop keeps it; [Pth fuel top] is what is known of the
    directories the walk reaches. *)
Lemma walk_topdown_post (I R K : state → Prop) (Pth : nat → list string → Prop)
    (body : list string → list string → list string → M (list string)) :
  (∀ n top dirs nondirs s,
      Pth (S n) top → I s → scandir E (st_fs s) top = Some (dirs, nondirs) →
      post (λ dirs' s', I s' ∧ ∀ d, d ∈ dirs' → Pth n (top ++ [d])) R K
           ((emit (EvScandir top);; body top dirs nondirs) s)) →
  (∀ top s, Pth 0 top → I s → scandir E (st_fs s) top ≠ None → K s) →
  ∀ n top s, Pth n top → I s → post (λ _, I) R K (walk_topdown E n body top s).
Proof.
  intros Hbody Hzero n. induction n as [|n IH]; intros top s Hp HI; simpl.
  - destruct (scandir E (st_fs s) top) as [[dirs nondirs]|] eqn:Hsc; [|done].
    simpl. eapply Hzero; eauto. by rewrite Hsc.
  - destruct (scandir E (st_fs s) top) as [[dirs nondirs]|] eqn:Hsc; [|done].
    specialize (Hbody n top dirs nondirs s Hp HI Hsc).
    unfold mbind at 1, M_bind at 1. unfold mbind at 1, M_bind at 1 in Hbody.
    destruct (emit (EvScandir top) s) as [[] s1|e s1|s1]; simpl in *; try done.
    unfold mbind, M_bind in *.
    destruct (body top dirs nondirs s1) as [dirs' s2|e s2|s2]; simpl in *; try done.
    destruct Hbody as [HI2 Hd].
    revert s2 HI2. induction dirs' as [|d dirs' IHd]; intros s2 HI2; simpl; [done|].
    specialize (IH (top ++ [d]) s2 (Hd d ltac:(left)) HI2).
    unfold mbind, M_bind.
    destruct (walk_topdown E n body (top ++ [d]) s2) as [[] s3|e s3|s3]; simpl in *; try done.
    apply IHd; [|done]. intros d' Hd'. apply Hd. by right.
Qed.

(** The rule for [os.walk], bottom-up. *)
Lemma walk_bottomup_post (I R K : state → Prop) (Pth : nat → list string → Prop)
    (body : list string → list string → list string → M unit) :
  (∀ n top dirs nondirs s,
      Pth (S n) top → I s → scandir E (st_fs s) top = Some (dirs, nondirs) →
      post (λ _ s', I s' ∧ ∀ d, d ∈ dirs → Pth n (top ++ [d])) R K
           (emit (EvScandir top) s)) →
  (∀ n top dirs nondirs s,
      Pth (S n) top → I s → post (λ _, I) R K (body top dirs nondirs s)) →
  (∀ top s, Pth 0 top → I s → scandir E (st_fs s) top ≠ None → K s) →
  ∀ n top s, Pth n top → I s → post (λ _, I) R K (walk_bottomup E n body top s).
Proof.
  intros Hscan Hbody Hzero n. induction n as [|n IH]; intros top s Hp HI; simpl.
  - destruct (scandir E (st_fs s) top) as [[dirs nondirs]|] eqn:Hsc; [|done].
    simpl. eapply Hzero; eauto. by rewrite Hsc.
  - destruct (scandir E (st_fs s) top) as [[dirs nondirs]|] eqn:Hsc; [|done].
    specialize (Hscan n top dirs nondirs s Hp HI Hsc).
    apply post_bind. eapply post_mono; [| | |exact Hscan]; simpl; auto.
    intros _ s1 [HI1 Hd]. apply post_bind.
    assert (post (λ _, I) R K
              (for_each dirs (λ d, walk_bottomup E n body (top ++ [d])) s1)) as Hch.
    { apply for_each_post; [|done]. intros d s' Hin HI'. apply IH; auto. }
    eapply post_mono; [| | |exact Hch]; simpl; auto.
    intros _ s2 HI2. by eapply Hbody.
Qed.
End WalkRules.

(** ** Part V: recorded operations and what they keep *)

Lemma replay_app (l1 l2 : list event) (fs : gmap (list string) node) :
  replay (l1 ++ l2) fs = replay l1 fs ≫= replay l2.
Proof.
  revert fs. induction l1 as [|e l1 IH]; intros fs; simpl; [done|].
  destruct (apply_event e fs) as [fs'|]; simpl; [apply IH | done].
Qed.

Lemma replay_snoc (l : list event) (e : event) (fs fs1 fs2 : gmap (list string) node) :
  replay l fs = Some fs1 → apply_event e fs1 = Some fs2 →
  replay (l ++ [e]) fs = Some fs2.
Proof. intros H1 H2. rewrite replay_app, H1. simpl. by rewrite H2. Qed.

Lemma dirname_snoc (p : list string) (n : string) : dirname (p ++ [n]) = p.
Proof. apply removelast_last. Qed.

Lemma snoc_ne_self (p : list string) (n : string) : p ++ [n] ≠ p.
Proof. intros H. apply (f_equal length) in H. rewrite length_app in H. simpl in H. lia. Qed.

(** What each operation leaves in place. *)
Lemma apply_event_inv (e : event) (fs fs' : gmap (list string) node) :
  apply_event e fs = Some fs' →
  match e with
  | EvMkdir p =>
      fs !! p = None ∧ fs !! dirname p = Some Dir ∧ fs' = <[p := Dir]> fs
  | EvMove src dst =>
      ∃ data, fs !! src = Some (File data) ∧ fs !! dst = None
              ∧ fs !! dirname dst = Some Dir
              ∧ fs' = <[dst := File data]> (delete src fs)
  | EvRmdir p =>
      fs !! p = Some Dir ∧ (∀ n, fs !! (p ++ [n]) = None) ∧ fs' = delete p fs
  | _ => fs' = fs
  end.
Proof.
  destruct e; simpl; try (by intros [= <-]).
  - destruct (bool_decide _) eqn:H1; [|done].
    destruct (isdir fs (dirname p)) eqn:H2; [|done]. simpl. intros [= <-].
    apply bool_decide_eq_true in H1. by apply isdir_true in H2.
  - destruct (fs !! src) as [[data|]|] eqn:Hs; try done.
    destruct (bool_decide _) eqn:H1; [|done].
    destruct (isdir fs (dirname dst)) eqn:H2; [|done]. simpl. intros [= <-].
    apply bool_decide_eq_true in H1. apply isdir_true in H2. eauto.
  - destruct (isdir fs p) eqn:H1; [|done].
    destruct (bool_decide _) eqn:H2; [|done]. simpl. intros [= <-].
    apply isdir_true in H1. apply bool_decide_eq_true in H2.
    split_and!; [done| |done].
    intros n. destruct (fs !! (p ++ [n])) as [nd|] eqn:Hn; [|done].
    apply elem_of_raw_entries in Hn. rewrite H2 in Hn. by apply elem_of_nil in Hn.
Qed.








(** ** Part VI: the Namer *)

(** The candidates in the order the Namer tries them: number 0 is
    [stem + suffix + ext], number [i] is [stem + suffix + "_" + i + ext]. *)
Definition candidate (directory : list string) (filename suffix : string)
    (i : nat) : list string :=
  let '(stem, ext) := PosixPath.splitext filename in
  directory ++ [match i with
                | 0 => stem +:+ suffix +:+ ext
                | S _ => stem +:+ suffix +:+ "_" +:+ pretty i +:+ ext
                end].

Lemma first_free_seq (fs : gmap (list string) node) (directory : list string)
    (base suffix ext : string) (a n : nat) :
  let nm i := directory ++ [base +:+ suffix +:+ "_" +:+ pretty i +:+ ext] in
  match first_free fs directory base suffix ext (seq a n) with
  | Some p =>
      ∃ i, a ≤ i < a + n ∧ p = nm i ∧ fs !! p = None
           ∧ ∀ j, a ≤ j < i → is_Some (fs !! nm j)
  | None => ∀ j, a ≤ j < a + n → is_Some (fs !! nm j)
  end.
Proof.
  intros nm. revert a. induction n as [|n IH]; intros a; simpl.
  - intros j Hj. lia.
  - fold (nm a). destruct (path_exists fs (nm a)) eqn:Hex; simpl.
    + apply path_exists_true in Hex. specialize (IH (S a)).
      destruct (first_free fs directory base suffix ext (seq (S a) n)) as [p|].
      * destruct IH as (i & Hi & -> & Hnone & Hbefore).
        exists i. split; [lia|]. split; [done|]. split; [done|].
        intros j Hj. destruct (decide (j = a)) as [->|]; [done|].
        apply Hbefore. lia.
      * intros j Hj. destruct (decide (j = a)) as [->|]; [done|].
        apply IH. lia.
    + apply path_exists_false in Hex. exists a. split; [lia|]. split; [done|]. split; [done|].
      intros j Hj. lia.
Qed.

Lemma unique_target_path_Some (fs : gmap (list string) node)
    (directory : list string) (filename suffix : string) (max_tries : nat)
    (p : list string) :
  unique_target_path fs directory filename suffix max_tries = Some p →
  fs !! p = None ∧ ∃ x, p = directory ++ [x].
Proof.
  unfold unique_target_path.
  destruct (PosixPath.splitext filename) as [base ext].
  destruct (path_exists fs (directory ++ [base +:+ suffix +:+ ext])) eqn:Hex; simpl.
  - pose proof (first_free_seq fs directory base suffix ext 1 max_tries) as H.
    simpl in H. intros Heq. rewrite Heq in H.
    destruct H as (i & _ & -> & Hnone & _). eauto.
  - intros [= <-]. apply path_exists_false in Hex. eauto.
Qed.


(** ** Part VII: one round of each loop, case by case *)

Definition log_add (s : state) (l : list event) : state :=
  State (st_fs s) (st_seen s) (st_log s ++ l).

Section Steps.
Context (E : env).

Lemma hash_file_cases (p : list string) (s : state) :
  (∃ c, st_fs s !! p = Some (File c)
        ∧ hash_file E p s = Done (Ok (sha256 E c)) (log_add s [EvHash p]))
  ∨ hash_file E p s = Done OSError (log_add s [EvHashFail p]).
Proof.
  unfold hash_file. destruct (st_fs s !! p) as [[c|]|] eqn:Hp; [|by right..].
  destruct (read_fails E p); [by right|]. left. by exists c.
Qed.

Lemma rename_file_eq (src dst : list string) (data : string) (s : state) :
  rename_file src dst data s
  = Done (Ok tt) (State (<[dst := File data]> (delete src (st_fs s)))
                        (st_seen s) (st_log s ++ [EvMove src dst])).
Proof. done. Qed.

(** [shutil.move] to a name that is free. *)
Inductive move_step (src dst : list string) (s : state)
  : outcome (result unit) → Prop :=
  | move_ok data :
      st_fs s !! src = Some (File data) →
      st_fs s !! dirname dst = Some Dir →
      move_step src dst s
        (Done (Ok tt) (State (<[dst := File data]> (delete src (st_fs s)))
                             (st_seen s) (st_log s ++ [EvMove src dst])))
  | move_fail :
      move_step src dst s (Done OSError (log_add s [EvMoveFail src dst]))
  | move_stuck :
      st_fs s !! src = Some Dir → move_step src dst s (Stuck s).

Lemma shutil_move_step (src dst : list string) (s : state) :
  st_fs s !! dst = None → move_step src dst s (shutil_move E src dst s).
Proof.
  intros Hd. unfold shutil_move. rewrite Hd.
  destruct (st_fs s !! src) as [[data|]|] eqn:Hs.
  - destruct (move_fails E src dst); [apply move_fail|].
    destruct (isdir (st_fs s) (dirname dst)) eqn:Hdir; [|apply move_fail].
    apply isdir_true in Hdir. rewrite rename_file_eq. by apply move_ok.
  - by apply move_stuck.
  - apply move_fail.
Qed.

(** One round of the inner loop of pass 1. *)
Inductive dedup_step (q top : list string) (n : string) (s : state)
  : outcome unit → Prop :=
  | dedup_skip :
      q `prefix_of` top ++ [n] → dedup_step q top n s (Done tt s)
  | dedup_unreadable :
      ¬ q `prefix_of` top ++ [n] →
      dedup_step q top n s (Done tt (log_add s [EvHashFail (top ++ [n])]))
  | dedup_first c :
      ¬ q `prefix_of` top ++ [n] →
      st_fs s !! (top ++ [n]) = Some (File c) →
      st_seen s !! sha256 E c = None →
      dedup_step q top n s
        (Done tt (State (st_fs s) (<[sha256 E c := top ++ [n]]> (st_seen s))
                        (st_log s ++ [EvHash (top ++ [n])])))
  | dedup_moved c x :
      ¬ q `prefix_of` top ++ [n] →
      st_fs s !! (top ++ [n]) = Some (File c) →
      is_Some (st_seen s !! sha256 E c) →
      st_fs s !! (q ++ [x]) = None →
      st_fs s !! q = Some Dir →
      dedup_step q top n s
        (Done tt (State (<[q ++ [x] := File c]> (delete (top ++ [n]) (st_fs s)))
                        (st_seen s)
                        (st_log s ++ [EvHash (top ++ [n]);
                                      EvMove (top ++ [n]) (q ++ [x])])))
  | dedup_move_failed c x :
      ¬ q `prefix_of` top ++ [n] →
      st_fs s !! (top ++ [n]) = Some (File c) →
      is_Some (st_seen s !! sha256 E c) →
      dedup_step q top n s
        (Done tt (log_add s [EvHash (top ++ [n]);
                             EvMoveFail (top ++ [n]) (q ++ [x])]))
  | dedup_exhausted c :
      ¬ q `prefix_of` top ++ [n] →
      st_fs s !! (top ++ [n]) = Some (File c) →
      is_Some (st_seen s !! sha256 E c) →
      unique_target_path (st_fs s) q n "_dup" max_tries_default = None →
      dedup_step q top n s (Raised RuntimeError (log_add s [EvHash (top ++ [n])])).

Lemma dedup_file_step (q top : list string) (n : string) (s : state) :
  dedup_step q top n s (dedup_file E q top n s).
Proof.
  unfold dedup_file. destruct (is_within (top ++ [n]) q) eqn:Hw.
  { apply is_within_true in Hw. by apply dedup_skip. }
  apply is_within_false in Hw. unfold mbind at 1, M_bind at 1.
  destruct (hash_file_cases (top ++ [n]) s) as [(c & Hc & ->)| ->];
    [|by apply dedup_unreadable].
  unfold mbind at 1, M_bind at 1. simpl.
  case_bool_decide as Hseen.
  - unfold mbind at 1, M_bind at 1. unfold unique_target. simpl.
    destruct (unique_target_path (st_fs s) q n "_dup" max_tries_default)
      as [t|] eqn:Ht; [|by eapply dedup_exhausted].
    apply unique_target_path_Some in Ht as (Hnone & x & ->).
    unfold mbind, M_bind.
    pose proof (shutil_move_step (top ++ [n]) (q ++ [x])
                  (log_add s [EvHash (top ++ [n])]) Hnone) as Hm.
    inversion Hm as [data Hsrc Hdd Heq|Heq|Hsrc Heq]; simpl in *.
    + rewrite Hc in Hsrc. injection Hsrc as <-.
      rewrite dirname_snoc in Hdd. rewrite <- app_assoc. simpl.
      by apply dedup_moved.
    + unfold log_add. simpl. rewrite <- app_assoc. simpl.
      by eapply (dedup_move_failed q top n s c x).
    + congruence.
  - apply eq_None_not_Some in Hseen. unfold put_seen, log_add. simpl.
    by apply dedup_first.
Qed.

(** One round of the inner loop of pass 2. *)
Inductive flatten_step (root q top : list string) (n : string) (s : state)
  : outcome unit → Prop :=
  | flatten_skip :
      q `prefix_of` top ++ [n] ∨ top = root →
      flatten_step root q top n s (Done tt s)
  | flatten_moved c x :
      ¬ q `prefix_of` top ++ [n] → top ≠ root →
      st_fs s !! (top ++ [n]) = Some (File c) →
      st_fs s !! (root ++ [x]) = None →
      st_fs s !! root = Some Dir →
      flatten_step root q top n s
        (Done tt (State (<[root ++ [x] := File c]> (delete (top ++ [n]) (st_fs s)))
                        (st_seen s)
                        (st_log s ++ [EvMove (top ++ [n]) (root ++ [x])])))
  | flatten_move_failed x :
      ¬ q `prefix_of` top ++ [n] → top ≠ root →
      st_fs s !! (root ++ [x]) = None →
      flatten_step root q top n s
        (Done tt (log_add s [EvMoveFail (top ++ [n]) (root ++ [x])]))
  | flatten_exhausted :
      ¬ q `prefix_of` top ++ [n] → top ≠ root →
      is_Some (st_fs s !! (root ++ [n])) →
      unique_target_path (st_fs s) root n "" max_tries_default = None →
      flatten_step root q top n s (Raised RuntimeError s)
  | flatten_stuck :
      st_fs s !! (top ++ [n]) = Some Dir →
      flatten_step root q top n s (Stuck s).

Lemma flatten_file_step (root q top : list string) (n : string) (s : state) :
  flatten_step root q top n s (flatten_file E root q top n s).
Proof.
  unfold flatten_file. destruct (is_within (top ++ [n]) q) eqn:Hw.
  { apply is_within_true in Hw. apply flatten_skip. by left. }
  apply is_within_false in Hw. case_bool_decide as Htop.
  { apply app_inv_tail in Htop. apply flatten_skip. by right. }
  assert (top ≠ root) as Hne by (by intros ->).
  unfold mbind at 1, M_bind at 1. simpl. unfold mbind at 1, M_bind at 1.
  assert (∀ x, st_fs s !! (root ++ [x]) = None →
     flatten_step root q top n s
       (match shutil_move E (top ++ [n]) (root ++ [x]) s with
        | Done _ s' => Done tt s'
        | Raised e s' => Raised e s'
        | Stuck s' => Stuck s'
        end)) as Hmove.
  { intros x Hnone.
    pose proof (shutil_move_step (top ++ [n]) (root ++ [x]) s Hnone) as Hm.
    inversion Hm as [data Hsrc Hdd Heq|Heq|Hsrc Heq]; simpl in *.
    - rewrite dirname_snoc in Hdd. by apply flatten_moved.
    - by apply flatten_move_failed.
    - by apply flatten_stuck. }
  destruct (path_exists (st_fs s) (root ++ [n])) eqn:Hex.
  - apply path_exists_true in Hex. unfold unique_target.
    destruct (unique_target_path (st_fs s) root n "" max_tries_default)
      as [t|] eqn:Ht; [|by apply flatten_exhausted].
    apply unique_target_path_Some in Ht as (Hnone & x & ->).
    by apply Hmove.
  - apply path_exists_false in Hex. by apply Hmove.
Qed.

(** One round of the loop of pass 3. *)
Inductive prune_step (root q top : list string) (s : state)
  : outcome unit → Prop :=
  | prune_skip :
      top = root ∨ q `prefix_of` top → prune_step root q top s (Done tt s)
  | prune_removed :
      top ≠ root → ¬ q `prefix_of` top →
      st_fs s !! top = Some Dir →
      (∀ n, st_fs s !! (top ++ [n]) = None) →
      rmdir_fails E top = false →
      prune_step root q top s
        (Done tt (State (delete top (st_fs s)) (st_seen s)
                        (st_log s ++ [EvRmdir top])))
  | prune_failed :
      top ≠ root → ¬ q `prefix_of` top →
      st_fs s !! top = Some Dir →
      (∀ n, st_fs s !! (top ++ [n]) = None) →
      rmdir_fails E top = true →
      prune_step root q top s (Done tt (log_add s [EvRmdirFail top]))
  | prune_kept :
      top ≠ root → ¬ q `prefix_of` top →
      st_fs s !! top ≠ Some Dir ∨ (∃ n, is_Some (st_fs s !! (top ++ [n]))) →
      prune_step root q top s (Done tt s).

Lemma pass3_body_step (root q top : list string) (dirs nondirs : list string)
    (s : state) :
  prune_step root q top s (pass3_body E root q top dirs nondirs s).
Proof.
  unfold pass3_body. case_bool_decide as H1.
  { apply prune_skip. destruct H1 as [->| ->]; [by left|by right]. }
  destruct (is_within top q) eqn:Hw.
  { apply is_within_true in Hw. apply prune_skip. by right. }
  apply is_within_false in Hw.
  assert (top ≠ root) as Hne by naive_solver.
  unfold mbind at 1, M_bind at 1. unfold listdir.
  destruct (isdir (st_fs s) top) eqn:Hd.
  - apply isdir_true in Hd.
    destruct (entries E (st_fs s) top) as [|[n nd] l] eqn:He; simpl.
    + pose proof (proj1 (entries_nil E (st_fs s) top) He) as Hempty.
      unfold mbind at 1, M_bind at 1. unfold rmdir.
      rewrite (proj2 (isdir_true (st_fs s) top) Hd), He.
      destruct (rmdir_fails E top) eqn:Hf.
      * by apply prune_failed.
      * unfold mbind, M_bind, put_fs, emit. simpl. by apply prune_removed.
    + apply prune_kept; [done..|]. right. exists n.
      assert ((n, nd) ∈ entries E (st_fs s) top) as Hin by (rewrite He; left).
      apply elem_of_entries in Hin. by rewrite Hin.
  - apply prune_kept; [done..|]. left. intros H. apply isdir_true in H. congruence.
Qed.
End Steps.

(** ** Part VIII: the record of a run *)

(** What the three passes may record. *)
Definition pass1_event (root : list string) (e : event) : Prop :=
  match e with
  | EvScandir p | EvHash p | EvHashFail p => live root p
  | EvMove src dst | EvMoveFail src dst =>
      live root src ∧ ∃ x, dst = quarantine root ++ [x]
  | _ => False
  end.

Definition pass2_event (root : list string) (e : event) : Prop :=
  match e with
  | EvScandir p => root `prefix_of` p
  | EvMove src dst | EvMoveFail src dst =>
      live root src ∧ ∃ x, dst = root ++ [x]
  | _ => False
  end.

Definition pass3_event (root : list string) (e : event) : Prop :=
  match e with
  | EvScandir p => root `prefix_of` p
  | EvRmdir p | EvRmdirFail p => live root p ∧ p ≠ root
  | _ => False
  end.

(** What a run may record at all. *)
Definition event_ok (root : list string) (e : event) : Prop :=
  match e with
  | EvMkdir p => p = quarantine root
  | EvScandir p => root `prefix_of` p
  | EvHash p | EvHashFail p => live root p
  | EvMove src dst | EvMoveFail src dst =>
      live root src ∧ ∃ x, dst = root ++ [x] ∨ dst = quarantine root ++ [x]
  | EvRmdir p | EvRmdirFail p => live root p ∧ p ≠ root
  end.

Lemma pass1_event_ok root e : pass1_event root e → event_ok root e.
Proof. destruct e; simpl; try done; [by intros []|naive_solver..]. Qed.
Lemma pass2_event_ok root e : pass2_event root e → event_ok root e.
Proof. destruct e; simpl; try done; naive_solver. Qed.
Lemma pass3_event_ok root e : pass3_event root e → event_ok root e.
Proof. destruct e; simpl; done. Qed.

(** [traced ok s0 s]: from [s0] the run reached [s] by operations that
    satisfy [ok], each applied under its conditions. *)
Definition traced (ok : event → Prop) (s0 s : state) : Prop :=
  ∃ l, st_log s = st_log s0 ++ l ∧ Forall ok l
       ∧ replay l (st_fs s0) = Some (st_fs s).

Lemma traced_refl (ok : event → Prop) (s : state) : traced ok s s.
Proof. exists []. by rewrite app_nil_r. Qed.

Lemma traced_trans (ok : event → Prop) (s0 s1 s2 : state) :
  traced ok s0 s1 → traced ok s1 s2 → traced ok s0 s2.
Proof.
  intros (l1 & H1 & Hok1 & Hr1) (l2 & H2 & Hok2 & Hr2).
  exists (l1 ++ l2). split_and!.
  - by rewrite H2, H1, app_assoc.
  - by apply Forall_app.
  - by rewrite replay_app, Hr1.
Qed.


Lemma traced_events (ok : event → Prop) (s : state) (l : list event)
    (fs : gmap (list string) node) (seen : gmap string (list string)) :
  Forall ok l → replay l (st_fs s) = Some fs →
  traced ok s (State fs seen (st_log s ++ l)).
Proof. intros Hok Hr. by exists l. Qed.

Lemma traced_step (ok : event → Prop) (s0 s : state) (l : list event)
    (fs : gmap (list string) node) (seen : gmap string (list string)) :
  traced ok s0 s → Forall ok l → replay l (st_fs s) = Some fs →
  traced ok s0 (State fs seen (st_log s ++ l)).
Proof. intros H0 Hok Hr. eapply traced_trans; [done|]. by apply traced_events. Qed.

Lemma prefix_snoc_inv (q top : list string) (n : string) :
  q `prefix_of` top ++ [n] → q = top ++ [n] ∨ q `prefix_of` top.
Proof.
  intros [k Hk]. destruct (decide (k = [])) as [->|Hne].
  - left. by rewrite app_nil_r in Hk.
  - right. destruct (exists_last Hne) as (k' & x & ->).
    rewrite app_assoc in Hk. apply app_inj_tail in Hk as [-> _].
    by exists k'.
Qed.

Lemma live_snoc (root top : list string) (n : string) :
  root `prefix_of` top → ¬ quarantine root `prefix_of` top ++ [n] →
  live root (top ++ [n]).
Proof. intros H1 H2. split; [by apply prefix_app_r|done]. Qed.

Lemma live_root (root : list string) : live root root.
Proof.
  split; [done|]. intros H. apply prefix_length in H.
  unfold quarantine in H. rewrite length_app in H. simpl in H. lia.
Qed.

Lemma quarantine_not_live (root p : list string) :
  quarantine root `prefix_of` p → ¬ live root p.
Proof. intros H [_ H']. done. Qed.

(** The paths an operation changes. *)
Lemma apply_event_lookup_ne (e : event) (fs fs' : gmap (list string) node)
    (p : list string) :
  apply_event e fs = Some fs' →
  match e with
  | EvMkdir p' | EvRmdir p' => p ≠ p'
  | EvMove src dst => p ≠ src ∧ p ≠ dst
  | _ => True
  end →
  fs' !! p = fs !! p.
Proof.
  intros He Hp. apply apply_event_inv in He. destruct e; try (by subst).
  - destruct He as (_ & _ & ->). by rewrite lookup_insert_ne.
  - destruct He as (data & _ & _ & _ & ->). destruct Hp.
    rewrite lookup_insert_ne by done. by rewrite lookup_delete_ne.
  - destruct He as (_ & _ & ->). by rewrite lookup_delete_ne.
Qed.

(** C10, one operation: nothing outside the root changes. *)
Lemma apply_event_outside (root : list string) (e : event)
    (fs fs' : gmap (list string) node) (p : list string) :
  event_ok root e → apply_event e fs = Some fs' →
  ¬ root `prefix_of` p → fs' !! p = fs !! p.
Proof.
  intros Hok He Hp. eapply apply_event_lookup_ne; [done|].
  destruct e; simpl in *; try done.
  - intros ->. apply Hp. subst. by apply prefix_app_r.
  - destruct Hok as [[Hs _] [x [->| ->]]]. split; [by intros ->|].
    + intros ->. apply Hp. by apply prefix_app_r.
    + split; [by intros ->|]. intros ->. apply Hp.
      unfold quarantine. rewrite <- app_assoc. by apply prefix_app_r.
  - destruct Hok as [[Hs _] _]. by intros ->.
Qed.

(** What lies in [_duplicates] stays as it is. *)
Lemma apply_event_quarantine (root : list string) (e : event)
    (fs fs' : gmap (list string) node) (p : list string) (nd : node) :
  event_ok root e → apply_event e fs = Some fs' →
  quarantine root `prefix_of` p → fs !! p = Some nd → fs' !! p = Some nd.
Proof.
  intros Hok He Hq Hp. rewrite <- Hp. eapply apply_event_lookup_ne; [done|].
  pose proof He as He'. apply apply_event_inv in He'.
  destruct e; simpl in *; try done.
  - destruct He' as (Hnone & _). intros ->. congruence.
  - destruct Hok as [[_ Hs] _]. destruct He' as (data & _ & Hd & _).
    split; [by intros ->|]. intros ->. congruence.
  - destruct Hok as [[_ Hs] _]. by intros ->.
Qed.

(** The root stays a directory. *)
Lemma apply_event_root (root : list string) (e : event)
    (fs fs' : gmap (list string) node) :
  event_ok root e → apply_event e fs = Some fs' →
  fs !! root = Some Dir → fs' !! root = Some Dir.
Proof.
  intros Hok He Hp. rewrite <- Hp. eapply apply_event_lookup_ne; [done|].
  pose proof He as He'. apply apply_event_inv in He'.
  destruct e; simpl in *; try done.
  - destruct He' as (Hnone & _). intros ->. congruence.
  - destruct He' as (data & Hs & Hd & _).
    split; intros ->; congruence.
  - by destruct Hok as [_ Hne].
Qed.

(** No path grows longer than two components below the root. *)
Definition bounded (H : nat) (fs : gmap (list string) node) : Prop :=
  ∀ p, is_Some (fs !! p) → length p ≤ H.

Lemma apply_event_bounded (root : list string) (H : nat) (e : event)
    (fs fs' : gmap (list string) node) :
  event_ok root e → apply_event e fs = Some fs' →
  length root + 2 ≤ H → bounded H fs → bounded H fs'.
Proof.
  intros Hok He HH Hb p Hp. pose proof He as He'. apply apply_event_inv in He'.
  destruct e; simpl in *; try (subst; by apply Hb).
  - destruct He' as (_ & _ & ->). destruct (decide (p = p0)) as [->|Hne].
    + subst. unfold quarantine. rewrite length_app. simpl. lia.
    + rewrite lookup_insert_ne in Hp by done. by apply Hb.
  - destruct He' as (data & _ & _ & _ & ->).
    destruct (decide (p = dst)) as [->|Hne].
    + destruct Hok as [_ [x [->| ->]]]; unfold quarantine;
        rewrite !length_app; simpl; lia.
    + rewrite lookup_insert_ne in Hp by done.
      destruct (decide (p = src)) as [->|Hne'].
      * rewrite lookup_delete_eq in Hp. by destruct Hp.
      * rewrite lookup_delete_ne in Hp by done. by apply Hb.
  - destruct He' as (_ & _ & ->). destruct (decide (p = p0)) as [->|Hne].
    + rewrite lookup_delete_eq in Hp. by destruct Hp.
    + rewrite lookup_delete_ne in Hp by done. by apply Hb.
Qed.

Lemma replay_ind_ok (root : list string) (P : gmap (list string) node → Prop)
    (l : list event) (fs fs' : gmap (list string) node) :
  (∀ e fs1 fs2, event_ok root e → apply_event e fs1 = Some fs2 → P fs1 → P fs2) →
  Forall (event_ok root) l → replay l fs = Some fs' → P fs → P fs'.
Proof.
  intros Hstep Hok. revert fs. induction Hok as [|e l He Hl IH]; intros fs; simpl.
  - by intros [= <-].
  - destruct (apply_event e fs) as [fs1|] eqn:Hap; [|done]. simpl.
    intros Hr HP. eapply IH; [done|]. by eapply Hstep.
Qed.

Section RunRecord.
Context (E : env) (root : list string).

Lemma traced_bounded (ok : event → Prop) (s0 s : state) (H : nat) :
  (∀ e, ok e → event_ok root e) → traced ok s0 s →
  length root + 2 ≤ H → bounded H (st_fs s0) → bounded H (st_fs s).
Proof.
  intros Hok (l & _ & Hl & Hr) HH Hb.
  eapply (replay_ind_ok root (bounded H)); [|by eapply Forall_impl|done|done].
  intros e fs1 fs2 He Hap. by eapply apply_event_bounded.
Qed.


Lemma dedup_file_traced (s0 s : state) (top : list string) (n : string) :
  root `prefix_of` top → traced (pass1_event root) s0 s →
  post (λ _, traced (pass1_event root) s0) (traced (pass1_event root) s0)
       (λ _, False) (dedup_file E (quarantine root) top n s).
Proof.
  intros Htop Ht.
  destruct (dedup_file_step E (quarantine root) top n s)
    as [Hq|Hq|c Hq Hc Hs|c x Hq Hc Hs Hx Hd|c x Hq Hc Hs|c Hq Hc Hs Hu]; simpl.
  - done.
  - apply traced_step; [done| |done]. repeat constructor; by apply live_snoc.
  - apply traced_step; [done| |done]. repeat constructor; by apply live_snoc.
  - apply traced_step; [done| |].
    + repeat constructor; try by apply live_snoc. by exists x.
    + simpl. rewrite Hc, Hx, dirname_snoc.
      by rewrite (proj2 (isdir_true _ _) Hd).
  - apply traced_step; [done| |done].
    repeat constructor; try by apply live_snoc. by exists x.
  - apply traced_step; [done| |done]. repeat constructor; by apply live_snoc.
Qed.

Lemma deduplicate_traced (s0 : state) (fuel H : nat) :
  bounded H (st_fs s0) → length root + 2 ≤ H → H < length root + fuel →
  post (λ _, traced (pass1_event root) s0) (traced (pass1_event root) s0)
       (λ _, False) (deduplicate E fuel root s0).
Proof.
  intros Hb HH Hfuel. unfold deduplicate.
  apply (walk_topdown_post E (traced (pass1_event root) s0) _ _
           (λ n top, root `prefix_of` top ∧ ¬ quarantine root `prefix_of` top
                     ∧ H < length top + n)).
  - intros n top dirs nondirs s (Hr & Hq & Hlen) Ht Hsc.
    apply post_bind. simpl. apply post_bind.
    assert (traced (pass1_event root) s0 (log_add s [EvScandir top])) as Ht1.
    { apply traced_step; [done| |done]. by repeat constructor. }
    eapply post_mono; [| | |apply (for_each_post nondirs _
        (traced (pass1_event root) s0) (traced (pass1_event root) s0)
        (λ _, False)); [|exact Ht1]]; simpl; auto.
    + intros _ s' Hs'. split; [done|]. intros d Hd.
      apply list_elem_of_filter in Hd as [Hne _].
      split_and!.
      * by apply prefix_app_r.
      * intros Hp. apply prefix_snoc_inv in Hp as [Hp|Hp]; [|done].
        by apply Hne.
      * rewrite length_app. simpl. lia.
    + intros x s' _ Hs'. by apply dedup_file_traced.
  - intros top s (Hr & Hq & Hlen) Ht Hsc.
    destruct (scandir E (st_fs s) top) as [[dirs nondirs]|] eqn:Hs; [|done].
    apply scandir_Some in Hs as (Hd & _).
    assert (bounded H (st_fs s)) as Hb'.
    { eapply traced_bounded; [apply pass1_event_ok|done..]. }
    specialize (Hb' top ltac:(by rewrite Hd)). lia.
  - split_and!; [done|apply live_root|lia].
  - apply traced_refl.
Qed.

Lemma flatten_file_traced (s0 s : state) (top : list string) (n : string)
    (names : list string) :
  root `prefix_of` top →
  traced (pass2_event root) s0 s
  ∧ (∀ m, m ∈ names → st_fs s !! (top ++ [m]) ≠ Some Dir) →
  n ∈ names →
  post (λ _ s', traced (pass2_event root) s0 s'
                ∧ ∀ m, m ∈ names → st_fs s' !! (top ++ [m]) ≠ Some Dir)
       (traced (pass2_event root) s0) (λ _, False)
       (flatten_file E root (quarantine root) top n s).
Proof.
  intros Htop [Ht Hnd] Hn.
  destruct (flatten_file_step E root (quarantine root) top n s)
    as [Hq|c x Hq Hne Hc Hx Hd|x Hq Hne Hx|Hq Hne Hex Hu|Hdir]; simpl.
  - done.
  - split.
    + apply traced_step; [done| |].
      * repeat constructor; try by apply live_snoc. by exists x.
      * simpl. rewrite Hc, Hx, dirname_snoc.
        by rewrite (proj2 (isdir_true _ _) Hd).
    + intros m Hm. destruct (decide (top ++ [m] = root ++ [x])) as [->|Hne1].
      * by rewrite lookup_insert_eq.
      * rewrite lookup_insert_ne by done.
        destruct (decide (top ++ [m] = top ++ [n])) as [->|Hne2].
        -- by rewrite lookup_delete_eq.
        -- rewrite lookup_delete_ne by done. by apply Hnd.
  - split; [|done]. apply traced_step; [done| |done].
    repeat constructor; try by apply live_snoc. by exists x.
  - done.
  - by apply (Hnd n).
Qed.

Lemma flatten_traced (s0 : state) (fuel H : nat) :
  bounded H (st_fs s0) → length root + 2 ≤ H → H < length root + fuel →
  post (λ _, traced (pass2_event root) s0) (traced (pass2_event root) s0)
       (λ _, False) (flatten E fuel root s0).
Proof.
  intros Hb HH Hfuel. unfold flatten.
  apply (walk_topdown_post E (traced (pass2_event root) s0) _ _
           (λ n top, root `prefix_of` top ∧ H < length top + n)).
  - intros n top dirs nondirs s (Hr & Hlen) Ht Hsc.
    apply post_bind. simpl.
    assert (traced (pass2_event root) s0 (log_add s [EvScandir top])) as Ht1.
    { apply traced_step; [done| |done]. by repeat constructor. }
    assert (∀ d, d ∈ dirs →
              root `prefix_of` top ++ [d] ∧ H < length (top ++ [d]) + n) as Hch.
    { intros d _. split; [by apply prefix_app_r|].
      rewrite length_app. simpl. lia. }
    unfold pass2_body. repeat case_bool_decide; try done.
    destruct (is_within top (quarantine root)); [done|].
    apply post_bind.
    eapply post_mono; [| | |apply (for_each_post nondirs _
        (λ s', traced (pass2_event root) s0 s'
               ∧ ∀ m, m ∈ nondirs → st_fs s' !! (top ++ [m]) ≠ Some Dir)
        (traced (pass2_event root) s0) (λ _, False))]; simpl; auto.
    + by intros _ s' [Hs' _].
    + intros x s' Hx Hs'. by apply flatten_file_traced.
    + split; [done|]. intros m Hm.
      apply scandir_Some in Hsc as (_ & _ & Hf & _).
      apply Hf in Hm as [c Hc]. by rewrite Hc.
  - intros top s (Hr & Hlen) Ht Hsc.
    destruct (scandir E (st_fs s) top) as [[dirs nondirs]|] eqn:Hs; [|done].
    apply scandir_Some in Hs as (Hd & _).
    assert (bounded H (st_fs s)) as Hb'.
    { eapply traced_bounded; [apply pass2_event_ok|done..]. }
    specialize (Hb' top ltac:(by rewrite Hd)). lia.
  - split; [done|lia].
  - apply traced_refl.
Qed.

Lemma raw_entries_nil (fs : gmap (list string) node) (top : list string) :
  raw_entries fs top = [] ↔ ∀ n, fs !! (top ++ [n]) = None.
Proof.
  split.
  - intros H n. destruct (fs !! (top ++ [n])) as [nd|] eqn:Hn; [|done].
    apply elem_of_raw_entries in Hn. rewrite H in Hn. by apply elem_of_nil in Hn.
  - intros H. destruct (raw_entries fs top) as [|[n nd] l] eqn:Hl; [done|].
    assert ((n, nd) ∈ raw_entries fs top) as Hin by (rewrite Hl; left).
    apply elem_of_raw_entries in Hin. by rewrite H in Hin.
Qed.

Lemma pass3_body_traced (s0 s : state) (top dirs nondirs : list string) :
  root `prefix_of` top → traced (pass3_event root) s0 s →
  post (λ _, traced (pass3_event root) s0) (traced (pass3_event root) s0)
       (λ _, False) (pass3_body E root (quarantine root) top dirs nondirs s).
Proof.
  intros Htop Ht.
  destruct (pass3_body_step E root (quarantine root) top dirs nondirs s)
    as [Hq|Hne Hq Hd Hempty Hf|Hne Hq Hd Hempty Hf|Hne Hq Hk]; simpl.
  - done.
  - apply traced_step; [done| |].
    + by repeat constructor.
    + simpl. rewrite (proj2 (isdir_true _ _) Hd).
      by rewrite (bool_decide_eq_true_2 _ (proj2 (raw_entries_nil _ _) Hempty)).
  - apply traced_step; [done| |done]. by repeat constructor.
  - done.
Qed.

Lemma prune_traced (s0 : state) (fuel H : nat) :
  bounded H (st_fs s0) → length root + 2 ≤ H → H < length root + fuel →
  post (λ _, traced (pass3_event root) s0) (traced (pass3_event root) s0)
       (λ _, False) (prune E fuel root s0).
Proof.
  intros Hb HH Hfuel. unfold prune.
  apply (walk_bottomup_post E (traced (pass3_event root) s0) _ _
           (λ n top, root `prefix_of` top ∧ H < length top + n)).
  - intros n top dirs nondirs s (Hr & Hlen) Ht Hsc. simpl. split.
    + apply traced_step; [done| |done]. by repeat constructor.
    + intros d _. split; [by apply prefix_app_r|].
      rewrite length_app. simpl. lia.
  - intros n top dirs nondirs s (Hr & Hlen) Ht. by apply pass3_body_traced.
  - intros top s (Hr & Hlen) Ht Hsc.
    destruct (scandir E (st_fs s) top) as [[dirs nondirs]|] eqn:Hs; [|done].
    apply scandir_Some in Hs as (Hd & _).
    assert (bounded H (st_fs s)) as Hb'.
    { eapply traced_bounded; [apply pass3_event_ok|done..]. }
    specialize (Hb' top ltac:(by rewrite Hd)). lia.
  - split; [done|lia].
  - apply traced_refl.
Qed.
End RunRecord.

(** The record of a whole run: the creation of [_duplicates] when it was
    missing, then what pass 1, pass 2 and pass 3 recorded, each operation
    applied under its conditions. *)
Definition run_record (root : list string) (fs0 : gmap (list string) node)
    (s : state) : Prop :=
  ∃ l0 l1 l2 l3,
    st_log s = l0 ++ l1 ++ l2 ++ l3
    ∧ (l0 = [] ∨ l0 = [EvMkdir (quarantine root)])
    ∧ Forall (pass1_event root) l1
    ∧ Forall (pass2_event root) l2
    ∧ Forall (pass3_event root) l3
    ∧ replay (st_log s) fs0 = Some (st_fs s).

Lemma fs_height_bounded (fs : gmap (list string) node) :
  bounded (fs_height fs) fs.
Proof.
  intros p [nd Hp]. unfold fs_height. apply max_list_elem_of_le.
  apply list_elem_of_fmap. exists p. split; [done|].
  apply list_elem_of_fmap. exists (p, nd). split; [done|].
  by apply elem_of_map_to_list.
Qed.

Lemma bounded_mono (H H' : nat) (fs : gmap (list string) node) :
  H ≤ H' → bounded H fs → bounded H' fs.
Proof. intros Hle Hb p Hp. specialize (Hb p Hp). lia. Qed.

Lemma dirname_quarantine (root : list string) : dirname (quarantine root) = root.
Proof. apply dirname_snoc. Qed.

Lemma run_record_chain (root : list string) (fs0 : gmap (list string) node)
    (s1 s2 s3 s4 : state) :
  (st_log s1 = [] ∨ st_log s1 = [EvMkdir (quarantine root)]) →
  replay (st_log s1) fs0 = Some (st_fs s1) →
  traced (pass1_event root) s1 s2 →
  traced (pass2_event root) s2 s3 →
  traced (pass3_event root) s3 s4 →
  run_record root fs0 s4.
Proof.
  intros H0 Hr0 (l1 & Hl1 & Hok1 & Hr1) (l2 & Hl2 & Hok2 & Hr2)
    (l3 & Hl3 & Hok3 & Hr3).
  exists (st_log s1), l1, l2, l3. split_and!; try done.
  - by rewrite Hl3, Hl2, Hl1, <- !app_assoc.
  - rewrite Hl3, Hl2, Hl1, !replay_app, Hr0. simpl. rewrite Hr1. simpl.
    rewrite Hr2. simpl. done.
Qed.

Section MainRecord.
Context (E : env) (root : list string).

(** Every run of [main] ends, by a result or by an exception, and its
    record has the form above. *)
Lemma main_record (fs : gmap (list string) node) :
  post (λ _, run_record root fs) (run_record root fs) (λ _, False)
       (run E root fs).
Proof.
  unfold run, main. unfold mbind at 1, M_bind at 1. simpl.
  destruct (isdir fs root) eqn:Hroot; simpl.
  2:{ exists [], [], [], []. simpl. split_and!; auto. }
  apply isdir_true in Hroot.
  set (H := fs_height fs + 2).
  assert (length root ≤ fs_height fs) as Hlen.
  { apply fs_height_bounded. by rewrite Hroot. }
  assert (bounded H fs) as Hb.
  { eapply bounded_mono; [|apply fs_height_bounded]. unfold H. lia. }
  assert (∃ s1, (makedirs (quarantine root) (initial fs) = Done tt s1
                 ∨ (makedirs (quarantine root) (initial fs) = Raised FileExistsError s1))
                ∧ (st_log s1 = [] ∨ st_log s1 = [EvMkdir (quarantine root)])
                ∧ replay (st_log s1) fs = Some (st_fs s1)
                ∧ bounded H (st_fs s1)) as (s1 & Hmk & Hl0 & Hr0 & Hb1).
  { unfold makedirs. simpl.
    destruct (fs !! quarantine root) as [[c|]|] eqn:Hq.
    - exists (initial fs). simpl. auto.
    - exists (initial fs). simpl. auto.
    - rewrite dirname_quarantine, (proj2 (isdir_true _ _) Hroot).
      assert (apply_event (EvMkdir (quarantine root)) fs
              = Some (<[quarantine root := Dir]> fs)) as Hap.
      { simpl. rewrite Hq, dirname_quarantine.
        by rewrite (proj2 (isdir_true _ _) Hroot). }
      exists (State (<[quarantine root := Dir]> fs) ∅ [EvMkdir (quarantine root)]).
      split; [by left|]. split; [by right|]. split.
      + change (apply_event (EvMkdir (quarantine root)) fs ≫= replay []
                = Some (<[quarantine root := Dir]> fs)).
        by rewrite Hap.
      + eapply (apply_event_bounded root); [|exact Hap|unfold H; lia|done].
        done. }
  assert (run_record root fs s1) as Hrec1.
  { eapply run_record_chain; eauto using traced_refl. }
  unfold mbind at 1, M_bind at 1.
  destruct Hmk as [-> | ->]; [|done].
  unfold mbind at 1, M_bind at 1. simpl.
  set (s1' := State (st_fs s1) ∅ (st_log s1)).
  assert (length root + 2 ≤ H) as HH by (unfold H; lia).
  assert (H < length root + walk_fuel fs) as Hfuel
    by (unfold H, walk_fuel; lia).
  pose proof (deduplicate_traced E root s1' (walk_fuel fs) H Hb1 HH Hfuel) as H1.
  unfold mbind at 1, M_bind at 1.
  destruct (deduplicate E (walk_fuel fs) root s1') as [[] s2|e s2|s2];
    simpl in H1; [| |done].
  2:{ eapply (run_record_chain root fs s1'); eauto using traced_refl. }
  assert (bounded H (st_fs s2)) as Hb2.
  { eapply (traced_bounded root); [apply pass1_event_ok|done..]. }
  pose proof (flatten_traced E root s2 (walk_fuel fs) H Hb2 HH Hfuel) as H2.
  unfold mbind at 1, M_bind at 1.
  destruct (flatten E (walk_fuel fs) root s2) as [[] s3|e s3|s3];
    simpl in H2; [| |done].
  2:{ eapply (run_record_chain root fs s1'); eauto using traced_refl. }
  assert (bounded H (st_fs s3)) as Hb3.
  { eapply (traced_bounded root); [apply pass2_event_ok|done..]. }
  pose proof (prune_traced E root s3 (walk_fuel fs) H Hb3 HH Hfuel) as H3.
  unfold mbind at 1, M_bind at 1.
  destruct (prune E (walk_fuel fs) root s3) as [[] s4|e s4|s4];
    simpl in H3; [| |done].
  - simpl. eapply (run_record_chain root fs s1'); eauto.
  - eapply (run_record_chain root fs s1'); eauto.
Qed.
End MainRecord.

(** ** Part IX: what every run keeps *)

(** The paths an operation names. *)
Definition event_paths (e : event) : list (list string) :=
  match e with
  | EvMkdir p | EvScandir p | EvHash p | EvHashFail p
  | EvRmdir p | EvRmdirFail p => [p]
  | EvMove src dst | EvMoveFail src dst => [src; dst]
  end.

Lemma quarantine_prefix (root : list string) : root `prefix_of` quarantine root.
Proof. by apply prefix_app_r. Qed.

Lemma event_ok_paths (root : list string) (e : event) :
  event_ok root e → Forall (λ p, root `prefix_of` p) (event_paths e).
Proof.
  destruct e; simpl.
  - intros ->. repeat constructor. apply quarantine_prefix.
  - by repeat constructor.
  - intros [? _]. by repeat constructor.
  - intros [? _]. by repeat constructor.
  - intros [[? _] [x [->| ->]]]; repeat constructor; try done.
    + by apply prefix_app_r.
    + apply prefix_app_r, quarantine_prefix.
  - intros [[? _] [x [->| ->]]]; repeat constructor; try done.
    + by apply prefix_app_r.
    + apply prefix_app_r, quarantine_prefix.
  - intros [[? _] _]. by repeat constructor.
  - intros [[? _] _]. by repeat constructor.
Qed.

Lemma run_record_ok (root : list string) (fs : gmap (list string) node)
    (s : state) :
  run_record root fs s → Forall (event_ok root) (st_log s).
Proof.
  intros (l0 & l1 & l2 & l3 & -> & H0 & H1 & H2 & H3 & _).
  rewrite !Forall_app. split_and!.
  - destruct H0 as [-> | ->]; by repeat constructor.
  - eapply Forall_impl; [done|]. apply pass1_event_ok.
  - eapply Forall_impl; [done|]. apply pass2_event_ok.
  - eapply Forall_impl; [done|]. apply pass3_event_ok.
Qed.


Section EveryRun.
Context (E : env) (root : list string).

Lemma run_final_record (fs : gmap (list string) node) :
  run_record root fs (final_state (run E root fs)).
Proof.
  pose proof (main_record E root fs) as H.
  by destruct (run E root fs); simpl in *.
Qed.

Lemma run_not_stuck (fs : gmap (list string) node) (s : state) :
  run E root fs ≠ Stuck s.
Proof.
  pose proof (main_record E root fs) as H. intros Heq. by rewrite Heq in H.
Qed.

Lemma run_result (fs : gmap (list string) node) (n : Z) (s : state) :
  run E root fs = Done n s →
  if isdir fs root then n = 0%Z else n = 2%Z ∧ s = initial fs.
Proof.
  unfold run, main. unfold mbind at 1, M_bind at 1. simpl.
  destruct (isdir fs root); simpl; [|by intros [= <- <-]].
  intros H.
  repeat (apply bind_Done in H as (? & ? & _ & H)).
  by injection H as <- _.
Qed.

(** C10.  Every operation of a run names paths inside the root, the
    file system at the end is the initial one changed by these
    operations, and what lies outside the root is as it was. *)
Theorem run_frame (fs : gmap (list string) node) :
  let s := final_state (run E root fs) in
  Forall (λ e, Forall (λ p, root `prefix_of` p) (event_paths e)) (st_log s)
  ∧ replay (st_log s) fs = Some (st_fs s)
  ∧ ∀ p, ¬ root `prefix_of` p → st_fs s !! p = fs !! p.
Proof.
  intros s. pose proof (run_final_record fs) as Hrec. fold s in Hrec.
  pose proof (run_record_ok _ _ _ Hrec) as Hok.
  destruct Hrec as (l0 & l1 & l2 & l3 & _ & _ & _ & _ & _ & Hr).
  split_and!; [|done|].
  - eapply Forall_impl; [done|]. apply event_ok_paths.
  - intros p Hp.
    eapply (replay_ind_ok root (λ fs1, fs1 !! p = fs !! p)); [|done..].
    intros e fs1 fs2 He Hap <-. by eapply apply_event_outside.
Qed.


End EveryRun.


(** ** Part X: the quarantine directory *)



(** A run to try the program on: two copies of one content in the
    folders [x] and [y], a third file, nested empty folders, and a
    [_duplicates] folder that holds a folder [old] from an earlier run. *)
Definition plain_env : env :=
  Env "/" (λ data, data) (λ _, false) (λ _ _, false) (λ _, false) (λ _ _, 0).

Definition sample_fs : gmap (list string) node :=
  list_to_map
    [ ([], Dir); (["r"], Dir);
      (["r"; "x"], Dir); (["r"; "x"; "a.txt"], File "hello");
      (["r"; "y"], Dir); (["r"; "y"; "b.txt"], File "hello");
      (["r"; "y"; "a.txt"], File "other");
      (["r"; "y"; "z"], Dir);
      (["r"; "_duplicates"], Dir); (["r"; "_duplicates"; "old"], Dir);
      (["r"; "_duplicates"; "old"; "k.txt"], File "kept") ].



(** ** Part XI: the ContainmentChecker on path strings *)

Module PathFacts.
Import PosixPath.

Fixpoint has_sep (s : string) : bool :=
  match s with
  | EmptyString => false
  | String c s' => Ascii.eqb c sep || has_sep s'
  end.

(** A piece of a normalised path: not empty, not ["."], no separator. *)
Definition piece (c : string) : Prop :=
  (c ≠ "" ∧ c ≠ ".") ∧ has_sep c = false.




Lemma split_sep_free (s : string) : Forall (λ c, has_sep c = false) (split s).
Proof.
  induction s as [|a s IH]; simpl; [by repeat constructor|].
  destruct (Ascii.eqb a sep) eqn:Ha; [by constructor|].
  destruct (split s) as [|h t]; [by repeat constructor; simpl; rewrite Ha|].
  apply Forall_cons in IH as [Hh Ht]. constructor; [|done].
  simpl. by rewrite Ha.
Qed.





Lemma components_pieces (s : string) : Forall piece (components s).
Proof.
  unfold components. apply Forall_forall. intros c Hc.
  apply list_elem_of_filter in Hc as [Hne Hin]. split; [done|].
  pose proof (split_sep_free s) as H. rewrite Forall_forall in H. by apply H.
Qed.

















End PathFacts.

(** ** Part XII: what each pass achieves *)




Section Unfold.
Context (E : env).


End Unfold.

Lemma replay_ind_gen (ok : event → Prop) (P : gmap (list string) node → Prop)
    (l : list event) (fs fs' : gmap (list string) node) :
  (∀ e fs1 fs2, ok e → apply_event e fs1 = Some fs2 → P fs1 → P fs2) →
  Forall ok l → replay l fs = Some fs' → P fs → P fs'.
Proof.
  intros Hstep Hok. revert fs. induction Hok as [|e l He Hl IH]; intros fs; simpl.
  - by intros [= <-].
  - destruct (apply_event e fs) as [fs1|] eqn:Hap; [|done]. simpl.
    intros Hr HP. eapply IH; [done|]. by eapply Hstep.
Qed.






(** *** Pass 3 *)

(** What the walk of pass 3 below [top] records. *)
Definition prune_event (root top : list string) (e : event) : Prop :=
  match e with
  | EvScandir p => root `prefix_of` p
  | EvRmdir p | EvRmdirFail p =>
      (live root p ∧ p ≠ root) ∧ top `prefix_of` p
  | _ => False
  end.

Lemma prune_event_pass3 (root top : list string) (e : event) :
  prune_event root top e → pass3_event root e.
Proof. destruct e; simpl; naive_solver. Qed.






Section Prune.
Context (E : env) (root : list string).

Lemma pass3_body_prune_traced (top0 : list string) (s0 s : state)
    (top dirs nondirs : list string) :
  top0 `prefix_of` top → root `prefix_of` top →
  traced (prune_event root top0) s0 s →
  post (λ _, traced (prune_event root top0) s0)
       (traced (prune_event root top0) s0)
       (traced (prune_event root top0) s0)
       (pass3_body E root (quarantine root) top dirs nondirs s).
Proof.
  intros Htop0 Htop Ht.
  destruct (pass3_body_step E root (quarantine root) top dirs nondirs s)
    as [Hq|Hne Hq Hd Hempty Hf|Hne Hq Hd Hempty Hf|Hne Hq Hk]; simpl.
  - done.
  - apply traced_step; [done| |].
    + by repeat constructor.
    + simpl. rewrite (proj2 (isdir_true _ _) Hd).
      by rewrite (bool_decide_eq_true_2 _ (proj2 (raw_entries_nil _ _) Hempty)).
  - apply traced_step; [done| |done]. by repeat constructor.
  - done.
Qed.

Lemma prune_walk_post (top0 : list string) (fuel : nat) (s0 : state) :
  root `prefix_of` top0 →
  post (λ _, traced (prune_event root top0) s0)
       (traced (prune_event root top0) s0)
       (traced (prune_event root top0) s0)
       (walk_bottomup E fuel (pass3_body E root (quarantine root)) top0 s0).
Proof.
  intros Hroot.
  apply (walk_bottomup_post E (traced (prune_event root top0) s0) _ _
           (λ n top, top0 `prefix_of` top ∧ root `prefix_of` top)).
  - intros n top dirs nondirs s (Hr & Hlen) Ht Hsc. simpl. split.
    + apply traced_step; [done| |done]. by repeat constructor.
    + intros d _. split; by apply prefix_app_r.
  - intros n top dirs nondirs s (Hr & Hlen) Ht.
    by apply pass3_body_prune_traced.
  - done.
  - done.
  - apply traced_refl.
Qed.

Lemma prune_walk_traced (top : list string) (fuel : nat) (s s' : state) :
  root `prefix_of` top →
  walk_bottomup E fuel (pass3_body E root (quarantine root)) top s = Done tt s' →
  traced (prune_event root top) s s'.
Proof.
  intros Hroot Hrun. pose proof (prune_walk_post top fuel s Hroot) as H.
  by rewrite Hrun in H.
Qed.


End Prune.

(** *** The stages of a run that returns *)

Section Stages.
Context (E : env) (root : list string).

Lemma main_stages (fs : gmap (list string) node) (n : Z) (s' : state) :
  run E root fs = Done n s' → fs !! root = Some Dir →
  ∃ s1 s2 s3,
    ((fs !! quarantine root = Some Dir ∧ s1 = State fs ∅ [])
     ∨ (fs !! quarantine root = None
        ∧ s1 = State (<[quarantine root := Dir]> fs) ∅ [EvMkdir (quarantine root)]))
    ∧ deduplicate E (walk_fuel fs) root s1 = Done tt s2
    ∧ flatten E (walk_fuel fs) root s2 = Done tt s3
    ∧ prune E (walk_fuel fs) root s3 = Done tt s'
    ∧ n = 0%Z.
Proof.
  intros Hrun Hroot. unfold run, main in Hrun.
  apply bind_Done in Hrun as (fs' & s0 & Hget & Hrun).
  injection Hget as <- <-. simpl in Hrun.
  rewrite (proj2 (isdir_true _ _) Hroot) in Hrun. simpl in Hrun.
  apply bind_Done in Hrun as ([] & sa & Hmk & Hrun).
  apply bind_Done in Hrun as ([] & s1 & Hput & Hrun).
  apply bind_Done in Hrun as ([] & s2 & H1 & Hrun).
  apply bind_Done in Hrun as ([] & s3 & H2 & Hrun).
  apply bind_Done in Hrun as ([] & s4 & H3 & Hrun).
  injection Hrun as <- <-. injection Hput as <-.
  exists (State (st_fs sa) ∅ (st_log sa)), s2, s3.
  split; [|done]. unfold makedirs in Hmk. simpl in Hmk.
  destruct (fs !! quarantine root) as [[c|]|] eqn:Hq; try done.
  - injection Hmk as <-. by left.
  - rewrite dirname_quarantine, (proj2 (isdir_true _ _) Hroot) in Hmk.
    injection Hmk as <-. by right.
Qed.

Lemma stage1_traced (fs : gmap (list string) node) (s1 : state) :
  fs !! root = Some Dir →
  ((fs !! quarantine root = Some Dir ∧ s1 = State fs ∅ [])
   ∨ (fs !! quarantine root = None
      ∧ s1 = State (<[quarantine root := Dir]> fs) ∅ [EvMkdir (quarantine root)])) →
  traced (event_ok root) (initial fs) s1
  ∧ st_fs s1 !! quarantine root = Some Dir
  ∧ st_fs s1 !! root = Some Dir
  ∧ st_seen s1 = ∅
  ∧ (∀ p, p ≠ quarantine root → st_fs s1 !! p = fs !! p).
Proof.
  intros Hroot [[Hq ->]|[Hq ->]]; simpl.
  - split; [apply traced_refl|done].
  - split_and!; try done.
    + exists [EvMkdir (quarantine root)]. split; [done|]. split; [by repeat constructor|].
      simpl. rewrite Hq, dirname_quarantine, (proj2 (isdir_true _ _) Hroot). done.
    + apply lookup_insert_eq.
    + rewrite lookup_insert_ne; [done|]. unfold quarantine. apply snoc_ne_self.
    + intros p Hp. by rewrite lookup_insert_ne.
Qed.
End Stages.

(** *** Moves only: what passes 1 and 2 keep *)

Definition moves_only (e : event) : Prop :=
  match e with
  | EvMkdir _ | EvRmdir _ => False
  | _ => True
  end.

Lemma pass1_moves_only (root : list string) (e : event) :
  pass1_event root e → moves_only e.
Proof. by destruct e. Qed.


(** Directories stay where they are. *)
Lemma moves_dir_iff (ok : event → Prop) (t t' : state) (p : list string) :
  (∀ e, ok e → moves_only e) → traced ok t t' →
  st_fs t' !! p = Some Dir ↔ st_fs t !! p = Some Dir.
Proof.
  intros Hok (l & _ & Hl & Hr). symmetry.
  eapply (replay_ind_gen ok (λ fs1, st_fs t !! p = Some Dir ↔ fs1 !! p = Some Dir));
    [|done..].
  intros e fs1 fs2 He Hap ->. apply Hok in He. apply apply_event_inv in Hap.
  destruct e; simpl in He; try done; subst; try done.
  destruct Hap as (data & Hs & Hd & _ & ->).
  destruct (decide (p = dst)) as [->|Hne].
  - rewrite lookup_insert_eq, Hd. naive_solver.
  - rewrite lookup_insert_ne by done. destruct (decide (p = src)) as [->|Hne'].
    + rewrite lookup_delete_eq, Hs. naive_solver.
    + by rewrite lookup_delete_ne.
Qed.


(** A file that is gone was moved. *)
Lemma replay_file_gone (ok : event → Prop) (l : list event)
    (fs fs' : gmap (list string) node) (p : list string) (c : string) :
  (∀ e, ok e → moves_only e) → Forall ok l → replay l fs = Some fs' →
  fs !! p = Some (File c) →
  fs' !! p = Some (File c) ∨ ∃ dst l1 l2, l = l1 ++ EvMove p dst :: l2.
Proof.
  intros Hok Hl. revert fs. induction Hl as [|e l He Hl IH]; intros fs; simpl.
  - intros [= <-] Hp. by left.
  - destruct (apply_event e fs) as [fs1|] eqn:Hap; [|done]. simpl.
    intros Hr Hp. pose proof (Hok e He) as Hm.
    assert (fs1 !! p = Some (File c) ∨ ∃ dst, e = EvMove p dst) as [Hp1|[dst ->]].
    { apply apply_event_inv in Hap.
      destruct e; simpl in Hm; try done; subst; auto.
      destruct Hap as (data & Hs & Hd & _ & ->).
      destruct (decide (p = src)) as [->|Hne']; [right; eauto|].
      left. destruct (decide (p = dst)) as [->|Hne]; [congruence|].
      rewrite lookup_insert_ne by done. by rewrite lookup_delete_ne. }
    + destruct (IH fs1 Hr Hp1) as [Hleft|(dst & l1 & l2 & ->)]; [by left|].
      right. by exists dst, (e :: l1), l2.
    + right. by exists dst, [], l.
Qed.




(** *** Pass 2 *)

Section Flatten.
Context (E : env) (root : list string).

Lemma flatten_file_post (s0 s : state) (top : list string) (n : string) :
  root `prefix_of` top → traced (pass2_event root) s0 s →
  post (λ _, traced (pass2_event root) s0) (traced (pass2_event root) s0)
       (traced (pass2_event root) s0)
       (flatten_file E root (quarantine root) top n s).
Proof.
  intros Htop Ht.
  destruct (flatten_file_step E root (quarantine root) top n s)
    as [Hq|c x Hq Hne Hc Hx Hd|x Hq Hne Hx|Hq Hne Hex Hu|Hdir]; simpl; try done.
  - apply traced_step; [done| |].
    + repeat constructor; try by apply live_snoc. by exists x.
    + simpl. rewrite Hc, Hx, dirname_snoc.
      by rewrite (proj2 (isdir_true _ _) Hd).
  - apply traced_step; [done| |done].
    repeat constructor; try by apply live_snoc. by exists x.
Qed.

Lemma pass2_body_post (s0 s : state) (top dirs nondirs : list string) :
  root `prefix_of` top → traced (pass2_event root) s0 s →
  post (λ dirs' s', traced (pass2_event root) s0 s' ∧ dirs' = dirs)
       (traced (pass2_event root) s0) (traced (pass2_event root) s0)
       ((emit (EvScandir top);;
         pass2_body E root (quarantine root) top dirs nondirs) s).
Proof.
  intros Htop Ht. apply post_bind. simpl.
  assert (traced (pass2_event root) s0 (log_add s [EvScandir top])) as Ht1.
  { apply traced_step; [done| |done]. by repeat constructor. }
  unfold pass2_body. repeat case_bool_decide; try done.
  destruct (is_within top (quarantine root)); [done|].
  apply post_bind.
  eapply post_mono; [| | |apply (for_each_post nondirs _
      (traced (pass2_event root) s0) (traced (pass2_event root) s0)
      (traced (pass2_event root) s0))]; simpl; auto.
  intros x s' Hx Hs'. by apply flatten_file_post.
Qed.

Lemma flatten_walk_post (top : list string) (fuel : nat) (s0 : state) :
  root `prefix_of` top →
  post (λ _, traced (pass2_event root) s0) (traced (pass2_event root) s0)
       (traced (pass2_event root) s0)
       (walk_topdown E fuel (pass2_body E root (quarantine root)) top s0).
Proof.
  intros Hroot.
  apply (walk_topdown_post E (traced (pass2_event root) s0) _ _
           (λ n top, root `prefix_of` top)).
  - intros n t dirs nondirs s Hr Ht Hsc.
    eapply post_mono; [| | |by apply pass2_body_post]; simpl; auto.
    intros dirs' s' [Hs' ->]. split; [done|]. intros d _. by apply prefix_app_r.
  - done.
  - done.
  - apply traced_refl.
Qed.

Lemma flatten_walk_traced (top : list string) (fuel : nat) (s s' : state) :
  root `prefix_of` top →
  walk_topdown E fuel (pass2_body E root (quarantine root)) top s = Done tt s' →
  traced (pass2_event root) s s'.
Proof.
  intros Hroot Hrun. pose proof (flatten_walk_post top fuel s Hroot) as H.
  by rewrite Hrun in H.
Qed.




End Flatten.

Section FlattenRoot.
Context (E : env) (root : list string).


End FlattenRoot.

Section PruneRoot.
Context (E : env) (root : list string).

End PruneRoot.

(** *** Pass 1 *)

Section Dedup.
Context (E : env) (root : list string).

Lemma dedup_file_post (s0 s : state) (top : list string) (n : string) :
  root `prefix_of` top → traced (pass1_event root) s0 s →
  post (λ _, traced (pass1_event root) s0) (traced (pass1_event root) s0)
       (traced (pass1_event root) s0)
       (dedup_file E (quarantine root) top n s).
Proof.
  intros Htop Ht.
  eapply post_mono; [| | |by apply dedup_file_traced]; simpl; auto. done.
Qed.


Lemma dedup_walk_post (top : list string) (fuel : nat) (s0 : state) :
  live root top →
  post (λ _, traced (pass1_event root) s0) (traced (pass1_event root) s0)
       (traced (pass1_event root) s0)
       (walk_topdown E fuel (pass1_body E (quarantine root)) top s0).
Proof.
  intros Hlive.
  apply (walk_topdown_post E (traced (pass1_event root) s0) _ _
           (λ n top, live root top)).
  - intros n t dirs nondirs s Hl Ht Hsc.
    apply post_bind. simpl. apply post_bind.
    assert (traced (pass1_event root) s0 (log_add s [EvScandir t])) as Ht1.
    { apply traced_step; [done| |done]. constructor; [exact Hl|constructor]. }
    eapply post_mono; [| | |apply (for_each_post nondirs _
        (traced (pass1_event root) s0) (traced (pass1_event root) s0)
        (traced (pass1_event root) s0)); [|exact Ht1]]; simpl; auto.
    + intros _ s' Hs'. split; [done|]. intros d Hd.
      apply list_elem_of_filter in Hd as [Hne _].
      split; [apply prefix_app_r, Hl|].
      intros Hp. apply prefix_snoc_inv in Hp as [Hp|Hp]; [by apply Hne|].
      by apply (proj2 Hl).
    + intros x s' _ Hs'. apply dedup_file_post; [apply Hl|done].
  - done.
  - done.
  - apply traced_refl.
Qed.

Lemma dedup_walk_traced (top : list string) (fuel : nat) (s s' : state) :
  live root top →
  walk_topdown E fuel (pass1_body E (quarantine root)) top s = Done tt s' →
  traced (pass1_event root) s s'.
Proof.
  intros Hroot Hrun. pose proof (dedup_walk_post top fuel s Hroot) as H.
  by rewrite Hrun in H.
Qed.
End Dedup.

(** *** C8 *)




(** *** What pass 1 achieves *)

Section DedupSpec.
Context (E : env) (root : list string).










End DedupSpec.

Section DedupWalk.
Context (E : env) (root : list string).




End DedupWalk.

Section DedupWalkSpec.
Context (E : env) (root : list string).


End DedupWalkSpec.

(** ** Part XIII: counting the copies of a content *)

Lemma count_files_insert (P : list string → bool) (c : string)
    (fs : gmap (list string) node) (p : list string) (nd : node) :
  fs !! p = None →
  count_files P c (<[p := nd]> fs)
  = (if decide (P p = true ∧ nd = File c) then 1 else 0) + count_files P c fs.
Proof.
  intros Hp. unfold count_files.
  rewrite (map_to_list_insert _ _ _ Hp). rewrite filter_cons. simpl.
  by destruct (decide (P p = true ∧ nd = File c)).
Qed.

Lemma count_files_delete (P : list string → bool) (c : string)
    (fs : gmap (list string) node) (p : list string) (nd : node) :
  fs !! p = Some nd →
  count_files P c fs
  = (if decide (P p = true ∧ nd = File c) then 1 else 0)
    + count_files P c (delete p fs).
Proof.
  intros Hp. rewrite <- (insert_delete_id fs p nd Hp) at 1.
  apply count_files_insert. apply lookup_delete_eq.
Qed.

Lemma count_files_move (P : list string → bool) (c : string)
    (fs : gmap (list string) node) (src dst : list string) (data : string) :
  fs !! src = Some (File data) → fs !! dst = None →
  count_files P c (<[dst := File data]> (delete src fs))
  + (if decide (P src = true ∧ File data = File c) then 1 else 0)
  = count_files P c fs
    + (if decide (P dst = true ∧ File data = File c) then 1 else 0).
Proof.
  intros Hs Hd.
  rewrite count_files_insert.
  - rewrite (count_files_delete P c fs src _ Hs). lia.
  - rewrite lookup_delete_ne; [done|]. intros ->. congruence.
Qed.



Lemma liveb_true (root p : list string) : liveb root p = true ↔ live root p.
Proof.
  unfold liveb, live. rewrite andb_true_iff, negb_true_iff.
  by rewrite is_within_true, is_within_false.
Qed.

Lemma in_quarantine_true (root p : list string) :
  in_quarantine root p = true ↔ quarantine root `prefix_of` p.
Proof. apply is_within_true. Qed.


Lemma in_quarantine_live (root p : list string) :
  live root p → in_quarantine root p = false.
Proof.
  intros [_ H]. destruct (in_quarantine root p) eqn:Hq; [|done].
  by apply in_quarantine_true in Hq.
Qed.

Section Counts.
Context (root : list string) (c : string).


(** Passes 2 and 3 keep the copies on their side of [_duplicates]. *)
Lemma pass23_event_counts (e : event) (fs fs' : gmap (list string) node) :
  pass2_event root e ∨ pass3_event root e →
  apply_event e fs = Some fs' →
  fs !! quarantine root = Some Dir →
  fs' !! quarantine root = Some Dir
  ∧ count_files (liveb root) c fs' = count_files (liveb root) c fs
  ∧ count_files (in_quarantine root) c fs'
    = count_files (in_quarantine root) c fs.
Proof.
  intros He Hap Hq.
  assert (event_ok root e) as Hok.
  { destruct He; [by apply pass2_event_ok|by apply pass3_event_ok]. }
  split; [by eapply apply_event_quarantine|].
  apply apply_event_inv in Hap.
  destruct e; simpl in He; try (destruct He; done); subst; try done.
  - destruct He as [He|[]]. destruct Hap as (data & Hs & Hd & _ & ->).
    destruct He as [Hlive [x ->]].
    assert (live root (root ++ [x])) as Hlx.
    { split; [by apply prefix_app_r|]. intros Hp.
      apply prefix_snoc_inv in Hp as [Hp|Hp].
      - rewrite Hp in Hq. congruence.
      - by apply (proj2 (live_root root)). }
    pose proof (count_files_move (liveb root) c fs _ _ data Hs Hd) as H1.
    pose proof (count_files_move (in_quarantine root) c fs _ _ data Hs Hd) as H2.
    rewrite (proj2 (liveb_true root src) Hlive) in H1.
    rewrite (proj2 (liveb_true root _) Hlx) in H1.
    rewrite (in_quarantine_live root src Hlive) in H2.
    rewrite (in_quarantine_live root _ Hlx) in H2.
    rewrite !decide_False in H2 by naive_solver.
    destruct (decide (File data = File c)) as [Heq|Hne].
    + rewrite !decide_True in H1 by done. lia.
    + rewrite !decide_False in H1 by naive_solver. lia.
  - destruct Hap as (Hp & _ & ->).
    rewrite (count_files_delete (liveb root) c fs p _ Hp).
    rewrite (count_files_delete (in_quarantine root) c fs p _ Hp).
    rewrite !decide_False by naive_solver. done.
Qed.
End Counts.

Section TracedCounts.
Context (root : list string) (c : string).


Lemma pass23_traced_counts (ok : event → Prop) (s s' : state) :
  (∀ e, ok e → pass2_event root e ∨ pass3_event root e) →
  traced ok s s' →
  st_fs s !! quarantine root = Some Dir →
  st_fs s' !! quarantine root = Some Dir
  ∧ count_files (liveb root) c (st_fs s') = count_files (liveb root) c (st_fs s)
  ∧ count_files (in_quarantine root) c (st_fs s')
    = count_files (in_quarantine root) c (st_fs s).
Proof.
  intros Hok (l & _ & Hl & Hr) Hq.
  eapply (replay_ind_gen ok
            (λ fs1, fs1 !! quarantine root = Some Dir
                    ∧ count_files (liveb root) c fs1
                      = count_files (liveb root) c (st_fs s)
                    ∧ count_files (in_quarantine root) c fs1
                      = count_files (in_quarantine root) c (st_fs s)));
    [|done..].
  intros e fs1 fs2 He Hap (Hq1 & <- & <-).
  by apply (pass23_event_counts root c e); [apply Hok|..].
Qed.
End TracedCounts.

Section OneCopy.
Context (E : env) (root : list string).



End OneCopy.

(** *** C1 *)



(** ** Part XIV: running the program again *)

Section Shape.
Context (E : env) (root : list string).





End Shape.

(** A loop over distinct items with a precondition for each, every
    outcome considered. *)
Lemma for_each_pre_post {A} (f : A → M unit) (I : state → Prop)
    (Pre : A → state → Prop) (R K : state → Prop) (l : list A) :
  NoDup l →
  (∀ x s, x ∈ l → I s → Pre x s →
     post (λ _ s', I s' ∧ ∀ y, y ∈ l → y ≠ x → Pre y s → Pre y s') R K (f x s)) →
  ∀ s, I s → (∀ x, x ∈ l → Pre x s) → post (λ _, I) R K (for_each l f s).
Proof.
  induction l as [|x l IH]; intros Hnd Hstep s HI Hpre; simpl; [done|].
  apply NoDup_cons in Hnd as [Hx Hnd].
  apply post_bind.
  eapply post_mono; [| | |apply (Hstep x s); [left|done|apply Hpre; left]];
    simpl; auto.
  intros _ s' [HI' Hkeep]. apply IH; [done| |done|].
  - intros y t Hy HIt Hpy.
    eapply post_mono; [| | |apply (Hstep y t); [by right|done..]]; simpl; auto.
    intros _ t' [HIt' Hk]. split; [done|]. intros z Hz. apply Hk. by right.
  - intros y Hy. apply Hkeep; [by right| |apply Hpre; by right].
    intros ->. done.
Qed.




Section Again.
Context (E : env) (root : list string).

Lemma walk_topdown_S (fuel : nat)
    (body : list string → list string → list string → M (list string))
    (top dirs nondirs : list string) (s : state) :
  scandir E (st_fs s) top = Some (dirs, nondirs) →
  walk_topdown E (S fuel) body top s
  = (emit (EvScandir top);;
     dirs' ← body top dirs nondirs;
     for_each dirs' (λ d, walk_topdown E fuel body (top ++ [d]))) s.
Proof. intros H. simpl. by rewrite H. Qed.


End Again.

Section AgainPasses.
Context (E : env) (root : list string).





End AgainPasses.



(** ** Part XV: the Namer out of names *)

(** Every candidate up to the bound of the calls in [main] exists. *)
Definition namer_exhausted (fs : gmap (list string) node)
    (directory : list string) (filename suffix : string) : Prop :=
  unique_target_path fs directory filename suffix max_tries_default = None.

Lemma bind_Raised {A B} (m : M A) (k : A → M B) (s s' : state) (e : exn) :
  m s = Raised e s' → (m ≫= k) s = Raised e s'.
Proof. intros H. unfold mbind, M_bind. by rewrite H. Qed.

Section Exhausted.
Context (E : env) (root : list string).

(** Pass 1: the duplicate was read, then no name was found for it. *)
Lemma dedup_file_exhausted (top : list string) (n : string) (s : state)
    (c : string) :
  ¬ quarantine root `prefix_of` top ++ [n] →
  st_fs s !! (top ++ [n]) = Some (File c) →
  read_fails E (top ++ [n]) = false →
  is_Some (st_seen s !! sha256 E c) →
  namer_exhausted (st_fs s) (quarantine root) n "_dup" →
  dedup_file E (quarantine root) top n s
  = Raised RuntimeError (log_add s [EvHash (top ++ [n])]).
Proof.
  intros Hq Hc Hrd Hseen Hex. unfold dedup_file.
  rewrite (proj2 (is_within_false _ _) Hq).
  unfold mbind at 1, M_bind at 1. unfold hash_file. rewrite Hc, Hrd. simpl.
  unfold mbind at 1, M_bind at 1. simpl.
  rewrite bool_decide_eq_true_2 by done.
  unfold mbind at 1, M_bind at 1. unfold unique_target. simpl.
  unfold namer_exhausted in Hex. by rewrite Hex.
Qed.

(** Pass 2: the name is taken in the root and no other was found. *)
Lemma flatten_file_exhausted (top : list string) (n : string) (s : state) :
  ¬ quarantine root `prefix_of` top ++ [n] →
  top ≠ root →
  is_Some (st_fs s !! (root ++ [n])) →
  namer_exhausted (st_fs s) root n "" →
  flatten_file E root (quarantine root) top n s = Raised RuntimeError s.
Proof.
  intros Hq Hne Hex Hnone. unfold flatten_file.
  rewrite (proj2 (is_within_false _ _) Hq).
  rewrite bool_decide_eq_false_2 by (intros Heq; by apply app_inv_tail in Heq).
  unfold mbind at 1, M_bind at 1. simpl. unfold mbind at 1, M_bind at 1.
  rewrite (proj2 (path_exists_true _ _) Hex). unfold unique_target.
  unfold namer_exhausted in Hnone. by rewrite Hnone.
Qed.

(** The state a run is in when the Namer gave up. *)
Definition aborted_at (s : state) : Prop :=
  (∃ top n c l,
      st_log s = l ++ [EvHash (top ++ [n])]
      ∧ st_fs s !! (top ++ [n]) = Some (File c)
      ∧ is_Some (st_seen s !! sha256 E c)
      ∧ namer_exhausted (st_fs s) (quarantine root) n "_dup")
  ∨ (∃ top n,
      top ≠ root
      ∧ is_Some (st_fs s !! (root ++ [n]))
      ∧ namer_exhausted (st_fs s) root n "").

Lemma deduplicate_raised (fuel : nat) (top : list string) (s : state) :
  post (λ _ _, True) aborted_at (λ _, True)
       (walk_topdown E fuel (pass1_body E (quarantine root)) top s).
Proof.
  apply (walk_topdown_post E (λ _, True) _ _ (λ _ _, True)); try done.
  intros n t dirs nondirs s0 _ _ _. apply post_bind. unfold emit. simpl.
  unfold pass1_body. apply post_bind.
  eapply post_mono; [| | |
    apply (for_each_post nondirs _ (λ _, True) aborted_at (λ _, True))];
    simpl; auto.
  intros x s1 _ _.
  pose proof (dedup_file_step E (quarantine root) t x s1) as Hst.
  remember (dedup_file E (quarantine root) t x s1) as o eqn:Ho.
  destruct Hst; simpl; try done.
  left. exists t, x, c, (st_log s1). done.
Qed.

Lemma flatten_raised (fuel : nat) (top : list string) (s : state) :
  post (λ _ _, True) aborted_at (λ _, True)
       (walk_topdown E fuel (pass2_body E root (quarantine root)) top s).
Proof.
  apply (walk_topdown_post E (λ _, True) _ _ (λ _ _, True)); try done.
  intros n t dirs nondirs s0 _ _ _. apply post_bind. unfold emit. simpl.
  unfold pass2_body.
  case_bool_decide; [done|]. case_bool_decide; [done|].
  destruct (is_within t (quarantine root)); [done|].
  apply post_bind.
  eapply post_mono; [| | |
    apply (for_each_post nondirs _ (λ _, True) aborted_at (λ _, True))];
    simpl; auto.
  intros x s1 _ _.
  pose proof (flatten_file_step E root (quarantine root) t x s1) as Hst.
  remember (flatten_file E root (quarantine root) t x s1) as o eqn:Ho.
  destruct Hst; simpl; try done.
  right. exists t, x. done.
Qed.

Lemma prune_raised (fuel : nat) (top : list string) (s : state) :
  post (λ _ _, True) (λ _, False) (λ _, True)
       (walk_bottomup E fuel (pass3_body E root (quarantine root)) top s).
Proof.
  apply (walk_bottomup_post E (λ _, True) _ _ (λ _ _, True)); try done.
  intros n t dirs nondirs s0 _ _.
  pose proof (pass3_body_step E root (quarantine root) t dirs nondirs s0) as Hst.
  remember (pass3_body E root (quarantine root) t dirs nondirs s0) as o eqn:Ho.
  by destruct Hst.
Qed.

(** A run that ends in [RuntimeError] is in such a state. *)
Lemma run_raised (fs : gmap (list string) node) (s' : state) :
  run E root fs = Raised RuntimeError s' → aborted_at s'.
Proof.
  unfold run, main. unfold mbind at 1, M_bind at 1. simpl.
  destruct (isdir fs root); simpl; [|done].
  unfold mbind at 1, M_bind at 1.
  destruct (makedirs (quarantine root) (initial fs)) as [[] s1|e s1|s1] eqn:Hmk;
    [| |done].
  2:{ simpl. intros [= -> ->]. unfold makedirs in Hmk. simpl in Hmk.
      destruct (fs !! quarantine root) as [[c|]|]; try done.
      by destruct (isdir fs (dirname (quarantine root))). }
  unfold mbind at 1, M_bind at 1. simpl.
  set (s2 := State (st_fs s1) ∅ (st_log s1)).
  unfold mbind at 1, M_bind at 1.
  pose proof (deduplicate_raised (walk_fuel fs) root s2) as H1.
  unfold deduplicate.
  destruct (walk_topdown E (walk_fuel fs) (pass1_body E (quarantine root)) root s2)
    as [[] s3|e s3|s3]; simpl in H1; [|by intros [= -> ->]|done].
  unfold mbind at 1, M_bind at 1.
  pose proof (flatten_raised (walk_fuel fs) root s3) as H2.
  unfold flatten.
  destruct (walk_topdown E (walk_fuel fs) (pass2_body E root (quarantine root)) root s3)
    as [[] s4|e s4|s4]; simpl in H2; [|by intros [= -> ->]|done].
  unfold mbind at 1, M_bind at 1.
  pose proof (prune_raised (walk_fuel fs) root s4) as H3.
  unfold prune.
  destruct (walk_bottomup E (walk_fuel fs) (pass3_body E root (quarantine root)) root s4)
    as [[] s5|e s5|s5]; simpl in H3; done.
Qed.
End Exhausted.

Lemma bind_Done_eq {A B} (m : M A) (k : A → M B) (s s1 : state) (a : A) :
  m s = Done a s1 → (m ≫= k) s = k a s1.
Proof. intros H. unfold mbind, M_bind. by rewrite H. Qed.

Lemma singleton_list {A} (l : list A) (a : A) :
  NoDup l → (∀ x, x ∈ l ↔ x = a) → l = [a].
Proof.
  intros Hnd H. destruct l as [|b l].
  - exfalso. apply (not_elem_of_nil a). by apply H.
  - assert (b = a) as -> by (apply H; left).
    destruct l as [|c l]; [done|]. exfalso.
    assert (c = a) as -> by (apply H; right; left).
    apply NoDup_cons in Hnd as [Hin _]. apply Hin. left.
Qed.

Lemma unique_target_path_None (fs : gmap (list string) node)
    (directory : list string) (filename suffix base ext : string)
    (max_tries : nat) :
  PosixPath.splitext filename = (base, ext) →
  is_Some (fs !! (directory ++ [base +:+ suffix +:+ ext])) →
  (∀ i, 1 ≤ i ≤ max_tries →
     is_Some (fs !! (directory ++ [base +:+ suffix +:+ "_" +:+ pretty i +:+ ext]))) →
  unique_target_path fs directory filename suffix max_tries = None.
Proof.
  intros Hsplit H0 Hall. unfold unique_target_path. rewrite Hsplit.
  rewrite (proj2 (path_exists_true _ _) H0). cbv [negb].
  pose proof (first_free_seq fs directory base suffix ext 1 max_tries) as H.
  cbv zeta in H.
  destruct (first_free fs directory base suffix ext (seq 1 max_tries)) as [p|];
    [|done].
  destruct H as (i & Hi & -> & Hnone & _).
  destruct (Hall i ltac:(lia)) as [nd Hnd]. congruence.
Qed.

(** A tree in which the Namer has no name left for a duplicate of
    [a.txt]: the root [r] holds [a.txt] and the folder [x], [r/x] holds
    a copy of [a.txt], and [_duplicates] holds every candidate. *)
Section CrowdedRun.
Context (E : env) (fs : gmap (list string) node).
Hypothesis Hread : ∀ p, read_fails E p = false.
Hypothesis Hroot : fs !! ["r"] = Some Dir.
Hypothesis Hq : fs !! ["r"; "_duplicates"] = Some Dir.
Hypothesis Hroot_files : ∀ n, (∃ c, fs !! ["r"; n] = Some (File c)) ↔ n = "a.txt".
Hypothesis Hroot_dirs : ∀ n, fs !! ["r"; n] = Some Dir ↔ n = "x" ∨ n = "_duplicates".
Hypothesis Ha : fs !! ["r"; "a.txt"] = Some (File "x").
Hypothesis Hx : fs !! ["r"; "x"] = Some Dir.
Hypothesis Hx_files : ∀ n, (∃ c, fs !! ["r"; "x"; n] = Some (File c)) ↔ n = "a.txt".
Hypothesis Hx_dirs : ∀ n, fs !! ["r"; "x"; n] ≠ Some Dir.
Hypothesis Hxa : fs !! ["r"; "x"; "a.txt"] = Some (File "x").
Hypothesis Hfull : namer_exhausted fs ["r"; "_duplicates"] "a.txt" "_dup".

Definition crowded_end : state :=
  State fs (<[sha256 E "x" := ["r"; "a.txt"]]> ∅)
        [EvScandir ["r"]; EvHash ["r"; "a.txt"];
         EvScandir ["r"; "x"]; EvHash ["r"; "x"; "a.txt"]].

Lemma crowded_scan_root (s : state) :
  st_fs s = fs →
  ∃ dirs, scandir E (st_fs s) ["r"] = Some (dirs, ["a.txt"])
          ∧ filter (λ d, ["r"] ++ [d] ≠ quarantine ["r"]) dirs = ["x"].
Proof.
  intros ->.
  destruct (scandir E fs ["r"]) as [[dirs nondirs]|] eqn:Hsc;
    [|by apply scandir_None in Hsc].
  apply scandir_Some in Hsc as (_ & Hd & Hn & Hnd & Hnn).
  exists dirs. split.
  - f_equal. f_equal. apply singleton_list; [done|].
    intros n. rewrite Hn. apply Hroot_files.
  - apply singleton_list; [by apply NoDup_filter|].
    intros d. rewrite list_elem_of_filter, Hd. simpl. rewrite (Hroot_dirs d).
    split.
    + intros [Hne [->| ->]]; done.
    + intros ->. split; [done|by left].
Qed.

Lemma crowded_scan_x (s : state) :
  st_fs s = fs → scandir E (st_fs s) ["r"; "x"] = Some ([], ["a.txt"]).
Proof.
  intros ->.
  destruct (scandir E fs ["r"; "x"]) as [[dirs nondirs]|] eqn:Hsc;
    [|by apply scandir_None in Hsc].
  apply scandir_Some in Hsc as (_ & Hd & Hn & Hnd & Hnn).
  f_equal. f_equal.
  - destruct dirs as [|d dirs]; [done|]. exfalso.
    apply (Hx_dirs d). apply Hd. left.
  - apply singleton_list; [done|].
    intros n. rewrite Hn. apply Hx_files.
Qed.

Lemma for_each_one {A} (f : A → M unit) (x : A) (s : state) (o : outcome unit) :
  f x s = o → for_each [x] f s = o.
Proof.
  intros <-. simpl. unfold mbind, M_bind. by destruct (f x s) as [[] ?|?|?].
Qed.

Lemma crowded_first :
  dedup_file E (quarantine ["r"]) ["r"] "a.txt" (State fs ∅ [EvScandir ["r"]])
  = Done tt (State fs (<[sha256 E "x" := ["r"; "a.txt"]]> ∅)
                   [EvScandir ["r"]; EvHash ["r"; "a.txt"]]).
Proof.
  unfold dedup_file. simpl is_within. cbv iota.
  unfold mbind at 1, M_bind at 1. unfold hash_file. simpl.
  rewrite Ha, Hread. simpl.
  unfold mbind at 1, M_bind at 1. simpl.
  rewrite bool_decide_eq_false_2; [done|].
  rewrite lookup_empty. by intros [? ?].
Qed.

Lemma crowded_second :
  dedup_file E (quarantine ["r"]) ["r"; "x"] "a.txt"
    (State fs (<[sha256 E "x" := ["r"; "a.txt"]]> ∅)
           [EvScandir ["r"]; EvHash ["r"; "a.txt"]; EvScandir ["r"; "x"]])
  = Raised RuntimeError crowded_end.
Proof.
  rewrite (dedup_file_exhausted E ["r"] ["r"; "x"] "a.txt" _ "x").
  - reflexivity.
  - simpl. intros H. apply prefix_cons_inv_2 in H.
    by apply prefix_cons_inv_1 in H.
  - exact Hxa.
  - apply Hread.
  - simpl. rewrite lookup_insert_eq. by eexists.
  - exact Hfull.
Qed.

Lemma crowded_deduplicate (fuel : nat) :
  deduplicate E (S (S fuel)) ["r"] (State fs ∅ []) = Raised RuntimeError crowded_end.
Proof.
  unfold deduplicate.
  destruct (crowded_scan_root (State fs ∅ []) eq_refl) as (dirs & Hsc & Hfilter).
  rewrite (walk_topdown_S E _ _ _ _ _ _ Hsc).
  set (s1 := State fs ∅ [EvScandir ["r"]]).
  set (s2 := State fs (<[sha256 E "x" := ["r"; "a.txt"]]> ∅)
                   [EvScandir ["r"]; EvHash ["r"; "a.txt"]]).
  rewrite (bind_Done_eq _ _ _ s1 tt) by reflexivity.
  rewrite (bind_Done_eq _ _ s1 s2 ["x"]).
  2:{ unfold pass1_body. rewrite Hfilter.
      rewrite (bind_Done_eq _ _ s1 s2 tt); [done|].
      apply for_each_one, crowded_first. }
  apply for_each_one.
  rewrite (walk_topdown_S E _ _ _ _ _ _ (crowded_scan_x s2 eq_refl)).
  set (s3 := State fs (<[sha256 E "x" := ["r"; "a.txt"]]> ∅)
                   [EvScandir ["r"]; EvHash ["r"; "a.txt"]; EvScandir ["r"; "x"]]).
  rewrite (bind_Done_eq _ _ _ s3 tt) by reflexivity.
  apply bind_Raised. unfold pass1_body. apply bind_Raised.
  apply for_each_one, crowded_second.
Qed.

(** The run stops in pass 1, at the copy in [r/x]: passes 2 and 3 are
    not run. *)
Lemma crowded_run : run E ["r"] fs = Raised RuntimeError crowded_end.
Proof.
  unfold run, main.
  rewrite (bind_Done_eq _ _ _ (initial fs) fs) by reflexivity.
  rewrite (proj2 (isdir_true fs ["r"]) Hroot). cbv [negb]. cbv zeta.
  assert (walk_fuel fs = S (S (S (fs_height fs)))) as -> by (unfold walk_fuel; lia).
  rewrite (bind_Done_eq _ _ _ (initial fs) tt).
  2:{ unfold makedirs.
      change (st_fs (initial fs) !! quarantine ["r"])
        with (fs !! ["r"; "_duplicates"]).
      by rewrite Hq. }
  rewrite (bind_Done_eq _ _ _ (State fs ∅ []) tt) by reflexivity.
  apply bind_Raised. apply crowded_deduplicate.
Qed.
End CrowdedRun.

(** Such a tree: [_duplicates] holds [a_dup.txt] and [a_dup_1.txt] to
    [a_dup_10000.txt]. *)
Definition crowd_name (i : nat) : string :=
  "a" +:+ "_dup" +:+ "_" +:+ pretty i +:+ ".txt".

Fixpoint crowd (n : nat) : gmap (list string) node :=
  match n with
  | 0 => ∅
  | S m => <[["r"; "_duplicates"; crowd_name (S m)] := File "old"]> (crowd m)
  end.

Definition crowded (m : gmap (list string) node) : gmap (list string) node :=
  <[[] := Dir]> (<[["r"] := Dir]>
  (<[["r"; "a.txt"] := File "x"]> (<[["r"; "x"] := Dir]>
  (<[["r"; "x"; "a.txt"] := File "x"]> (<[["r"; "_duplicates"] := Dir]>
  (<[["r"; "_duplicates"; "a_dup.txt"] := File "old"]> m)))))).

Definition crowded_fs : gmap (list string) node := crowded (crowd max_tries_default).

Lemma crowd_keys (n : nat) (k : list string) :
  is_Some (crowd n !! k) → ∃ x, k = ["r"; "_duplicates"; x].
Proof.
  induction n as [|n IH]; cbn [crowd].
  - rewrite lookup_empty. by intros [? ?].
  - rewrite lookup_insert_is_Some'. intros [<-|H]; [eauto|by apply IH].
Qed.

Lemma crowd_full (n i : nat) :
  1 ≤ i ≤ n → is_Some (crowd n !! ["r"; "_duplicates"; crowd_name i]).
Proof.
  induction n as [|n IH]; intros Hi; [lia|]. cbn [crowd].
  rewrite lookup_insert_is_Some'.
  destruct (decide (i = S n)) as [->|Hne]; [by left|].
  right. apply IH. lia.
Qed.

Section Crowded.
Context (m : gmap (list string) node).
Hypothesis Hkeys : ∀ k, is_Some (m !! k) → ∃ x, k = ["r"; "_duplicates"; x].
Hypothesis Hfull : ∀ i, 1 ≤ i ≤ max_tries_default →
  is_Some (m !! ["r"; "_duplicates"; crowd_name i]).

Lemma crowded_other (k : list string) :
  (∀ x, k ≠ ["r"; "_duplicates"; x]) → m !! k = None.
Proof.
  intros Hk. apply eq_None_not_Some. intros H.
  destruct (Hkeys k H) as [x ->]. by apply (Hk x).
Qed.

Lemma crowded_root_entry (n : string) (nd : node) :
  crowded m !! ["r"; n] = Some nd
  ↔ (n = "a.txt" ∧ nd = File "x") ∨ (n = "x" ∧ nd = Dir)
    ∨ (n = "_duplicates" ∧ nd = Dir).
Proof.
  unfold crowded. rewrite !lookup_insert_Some.
  rewrite (crowded_other ["r"; n]) by done.
  naive_solver.
Qed.

Lemma crowded_x_entry (n : string) (nd : node) :
  crowded m !! ["r"; "x"; n] = Some nd ↔ n = "a.txt" ∧ nd = File "x".
Proof.
  unfold crowded. rewrite !lookup_insert_Some.
  rewrite (crowded_other ["r"; "x"; n]) by done.
  naive_solver.
Qed.

Lemma crowded_exhausted :
  namer_exhausted (crowded m) ["r"; "_duplicates"] "a.txt" "_dup".
Proof.
  apply (unique_target_path_None _ _ _ _ "a" ".txt"); [reflexivity| |].
  - change (is_Some (crowded m !! ["r"; "_duplicates"; "a_dup.txt"])).
    unfold crowded. rewrite !lookup_insert_is_Some'. do 6 right. by left.
  - intros i Hi.
    change (is_Some (crowded m !! ["r"; "_duplicates"; crowd_name i])).
    unfold crowded. rewrite !lookup_insert_is_Some'. do 7 right. by apply Hfull.
Qed.

Lemma crowded_raises (E : env) :
  (∀ p, read_fails E p = false) →
  run E ["r"] (crowded m) = Raised RuntimeError (crowded_end E (crowded m)).
Proof.
  intros Hread. apply crowded_run.
  - exact Hread.
  - unfold crowded. rewrite lookup_insert_ne by done. by rewrite lookup_insert_eq.
  - apply crowded_root_entry. auto.
  - intros n. split.
    + intros [c Hc]. apply crowded_root_entry in Hc. naive_solver.
    + intros ->. exists "x". apply crowded_root_entry. auto.
  - intros n. rewrite crowded_root_entry. naive_solver.
  - apply crowded_root_entry. auto.
  - apply crowded_root_entry. auto.
  - intros n. split.
    + intros [c Hc]. apply crowded_x_entry in Hc. naive_solver.
    + intros ->. exists "x". by apply crowded_x_entry.
  - intros n Hn. apply crowded_x_entry in Hn. naive_solver.
  - by apply crowded_x_entry.
  - apply crowded_exhausted.
Qed.
End Crowded.

(** C3, as stated, fails: in this tree the Namer has no name left for
    the copy of [a.txt] in [r/x], and the run ends there with the
    [RuntimeError] (exit status 1): the record stops at the digest of
    the copy, and passes 2 and 3 are not run. *)
Lemma namer_exhaustion_ends_run :
  run plain_env ["r"] crowded_fs
  = Raised RuntimeError
      (State crowded_fs (<["x" := ["r"; "a.txt"]]> ∅)
         [EvScandir ["r"]; EvHash ["r"; "a.txt"];
          EvScandir ["r"; "x"]; EvHash ["r"; "x"; "a.txt"]])
  ∧ exit_status (run plain_env ["r"] crowded_fs) = Some 1%Z.
Proof.
  assert (run plain_env ["r"] crowded_fs
          = Raised RuntimeError (crowded_end plain_env crowded_fs)) as H.
  { apply crowded_raises; [apply crowd_keys|intros i; apply crowd_full|done]. }
  rewrite H. split; reflexivity.
Qed.

(** C3, amended.  When the Namer has no name left, its [RuntimeError]
    is caught nowhere.  In pass 1 the round of a readable duplicate
    raises it once the digest is recorded, in pass 2 the round of a file
    whose name is taken in the root raises it with nothing recorded, and
    whatever follows the round is not run.  A run of [main] that ends
    with it has exit status 1, its file system is the initial one
    changed by the operations recorded so far, and the file the Namer
    was asked about is where it was. *)
Theorem namer_exhaustion_aborts (E : env) (root : list string) :
  (∀ (top : list string) (n c : string) (s : state)
     (B : Type) (k : unit → M B),
      ¬ quarantine root `prefix_of` top ++ [n] →
      st_fs s !! (top ++ [n]) = Some (File c) →
      read_fails E (top ++ [n]) = false →
      is_Some (st_seen s !! sha256 E c) →
      namer_exhausted (st_fs s) (quarantine root) n "_dup" →
      (dedup_file E (quarantine root) top n ≫= k) s
      = Raised RuntimeError (log_add s [EvHash (top ++ [n])]))
  ∧ (∀ (top : list string) (n : string) (s : state)
       (B : Type) (k : unit → M B),
      ¬ quarantine root `prefix_of` top ++ [n] →
      top ≠ root →
      is_Some (st_fs s !! (root ++ [n])) →
      namer_exhausted (st_fs s) root n "" →
      (flatten_file E root (quarantine root) top n ≫= k) s
      = Raised RuntimeError s)
  ∧ (∀ (fs : gmap (list string) node) (s' : state),
      run E root fs = Raised RuntimeError s' →
      exit_status (run E root fs) = Some 1%Z
      ∧ replay (st_log s') fs = Some (st_fs s')
      ∧ aborted_at E root s').
Proof.
  split_and!.
  - intros top n c s B k Hq Hc Hrd Hseen Hex.
    apply bind_Raised. by apply dedup_file_exhausted with c.
  - intros top n s B k Hq Hne Hsome Hex.
    apply bind_Raised. by apply flatten_file_exhausted.
  - intros fs s' Hrun. split_and!.
    + by rewrite Hrun.
    + pose proof (run_final_record E root fs) as Hrec. rewrite Hrun in Hrec.
      simpl in Hrec. by destruct Hrec as (l0 & l1 & l2 & l3 & _ & _ & _ & _ & _ & Hr).
    + by apply (run_raised E root fs).
Qed.

(** ** Part XVI: more on the Namer *)














(** ** Part XVII: how a run can end *)

(** *** The size of the tree *)







(** *** The exceptions *)





Section Raises.
Context (E : env) (root : list string).





End Raises.

Section RunEnds.
Context (E : env) (root : list string).


End RunEnds.




(** ** Part XVIII: the tree a run leaves *)





Lemma run_no_new_directory (E : env) (root : list string)
    (fs : gmap (list string) node) (p : list string) :
  st_fs (final_state (run E root fs)) !! p = Some Dir →
  p = quarantine root ∨ fs !! p = Some Dir.
Proof.
  pose proof (run_final_record E root fs) as Hrec.
  pose proof (run_record_ok _ _ _ Hrec) as Hok.
  destruct Hrec as (l0 & l1 & l2 & l3 & _ & _ & _ & _ & _ & Hr).
  apply (replay_ind_ok root
           (λ fs1, fs1 !! p = Some Dir → p = quarantine root ∨ fs !! p = Some Dir)
           (st_log (final_state (run E root fs))) fs
           (st_fs (final_state (run E root fs)))); [|done|done|by right].
  intros e fs1 fs2 He Hap IH Hp. apply apply_event_inv in Hap.
  destruct e; simpl in He; try (subst fs2; by apply IH).
  - destruct Hap as (_ & _ & ->). subst p0.
    destruct (decide (p = quarantine root)) as [->|Hne]; [by left|].
    rewrite lookup_insert_ne in Hp by done. by apply IH.
  - destruct Hap as (data & _ & _ & _ & ->).
    destruct (decide (p = dst)) as [->|Hne].
    + by rewrite lookup_insert_eq in Hp.
    + rewrite lookup_insert_ne in Hp by done.
      apply lookup_delete_Some in Hp as [_ Hp]. by apply IH.
  - destruct Hap as (_ & _ & ->).
    apply lookup_delete_Some in Hp as [_ Hp]. by apply IH.
Qed.

(** X8.  After a run that returns 0, the root and [_duplicates] are
    directories, and every directory of the tree is [_duplicates] or was
    a directory before the run: no other directory is created. *)
Theorem run_directories (E : env) (root : list string)
    (fs : gmap (list string) node) (s' : state) :
  run E root fs = Done 0%Z s' →
  st_fs s' !! root = Some Dir
  ∧ st_fs s' !! quarantine root = Some Dir
  ∧ ∀ p, st_fs s' !! p = Some Dir → p = quarantine root ∨ fs !! p = Some Dir.
Proof.
  intros Hrun.
  assert (fs !! root = Some Dir) as Hroot.
  { apply run_result in Hrun. destruct (isdir fs root) eqn:Hd.
    - by apply isdir_true in Hd.
    - by destruct Hrun. }
  split_and!.
  - pose proof (run_final_record E root fs) as Hrec.
    pose proof (run_record_ok _ _ _ Hrec) as Hok.
    destruct Hrec as (l0 & l1 & l2 & l3 & _ & _ & _ & _ & _ & Hr).
    rewrite Hrun in Hok, Hr. simpl in Hok, Hr.
    apply (replay_ind_ok root (λ fs1, fs1 !! root = Some Dir)
             (st_log s') fs (st_fs s')); [|done..].
    intros e fs1 fs2 He Hap. by apply (apply_event_root root e).
  - destruct (main_stages E root fs _ _ Hrun Hroot)
      as (s1 & s2 & s3 & Hs1 & H1 & H2 & H3 & _).
    destruct (stage1_traced root fs s1 Hroot Hs1) as (_ & Hq1 & _).
    pose proof (dedup_walk_traced E root root _ s1 s2 (live_root root) H1) as Ht2.
    pose proof (flatten_walk_traced E root root _ s2 s3 (reflexivity _) H2) as Ht3.
    pose proof (prune_walk_traced E root root _ s3 s' (reflexivity _) H3) as Ht4.
    assert (st_fs s2 !! quarantine root = Some Dir) as Hq2
      by (by apply (moves_dir_iff _ _ _ _ (pass1_moves_only root) Ht2)).
    destruct (pass23_traced_counts root "" (pass2_event root) s2 s3)
      as (Hq3 & _); [by left|done..|].
    destruct (pass23_traced_counts root "" (prune_event root root) s3 s')
      as (Hq4 & _); [|done..].
    intros e He. right. by eapply prune_event_pass3.
  - intros p Hp. apply (run_no_new_directory E root fs p). by rewrite Hrun.
Qed.

Lemma run_directories_witness :
  st_fs (final_state (run plain_env ["r"] sample_fs)) !! ["r"] = Some Dir
  ∧ st_fs (final_state (run plain_env ["r"] sample_fs)) !! quarantine ["r"]
    = Some Dir
  ∧ ∀ p, st_fs (final_state (run plain_env ["r"] sample_fs)) !! p = Some Dir →
         p = quarantine ["r"] ∨ sample_fs !! p = Some Dir.
Proof.
  apply (run_directories plain_env ["r"] sample_fs).
  vm_compute. reflexivity.
Defined.




(** ** Part XIX: reading a file block by block *)












(** ** Part XX: what pass 1 reads and records *)



(** Digests are of files that could be read, and so are moves into
    [_duplicates], done or failed. *)
Definition reads_first (E : env) (root : list string) (e : event) : Prop :=
  match e with
  | EvHash p => read_fails E p = false
  | EvMove src dst | EvMoveFail src dst =>
      (∃ x, dst = quarantine root ++ [x]) → read_fails E src = false
  | _ => True
  end.

Ltac all_read_events :=
  repeat (apply List.Forall_cons; [simpl; auto|]); try apply List.Forall_nil.

Section ReadsFirst.
Context (E : env) (root : list string).

Definition all_read (s : state) : Prop := Forall (reads_first E root) (st_log s).

Lemma all_read_add (s : state) (l : list event) :
  all_read s → Forall (reads_first E root) l → all_read (log_add s l).
Proof. intros H1 H2. unfold all_read. simpl. by apply Forall_app. Qed.

Lemma dedup_file_unreadable (top : list string) (n : string) (s : state) :
  ¬ quarantine root `prefix_of` top ++ [n] →
  read_fails E (top ++ [n]) = true →
  dedup_file E (quarantine root) top n s
  = Done tt (log_add s [EvHashFail (top ++ [n])]).
Proof.
  intros Hq Hrd. unfold dedup_file.
  rewrite (proj2 (is_within_false _ _) Hq).
  unfold mbind at 1, M_bind at 1. unfold hash_file. rewrite Hrd.
  by destruct (st_fs s !! (top ++ [n])) as [[data|]|].
Qed.

Lemma not_quarantine_child (x y : string) : root ++ [x] ≠ quarantine root ++ [y].
Proof.
  intros H. apply (f_equal length) in H. unfold quarantine in H.
  rewrite !length_app in H. simpl in H. lia.
Qed.

Lemma dedup_file_all_read (top : list string) (n : string) (s : state) :
  all_read s →
  post (λ _, all_read) all_read (λ _, True)
       (dedup_file E (quarantine root) top n s).
Proof.
  intros Hs.
  destruct (decide (quarantine root `prefix_of` top ++ [n])) as [Hq|Hq].
  { unfold dedup_file. by rewrite (proj2 (is_within_true _ _) Hq). }
  destruct (read_fails E (top ++ [n])) eqn:Hrd.
  { rewrite dedup_file_unreadable by done. simpl.
    apply all_read_add; [done|]. all_read_events. }
  pose proof (dedup_file_step E (quarantine root) top n s) as Hst.
  remember (dedup_file E (quarantine root) top n s) as o eqn:Ho.
  destruct Hst; simpl; try done.
  - apply all_read_add; [done|]. all_read_events.
  - apply (all_read_add s [EvHash (top ++ [n])]); [done|]. all_read_events.
  - apply (all_read_add s [EvHash (top ++ [n]); EvMove (top ++ [n]) (quarantine root ++ [x])]);
      [done|]. all_read_events.
  - apply all_read_add; [done|]. all_read_events.
  - apply all_read_add; [done|]. all_read_events.
Qed.

Lemma deduplicate_all_read (fuel : nat) (s : state) :
  all_read s →
  post (λ _, all_read) all_read (λ _, True) (deduplicate E fuel root s).
Proof.
  intros Hs. unfold deduplicate.
  apply (walk_topdown_post E all_read _ _ (λ _ _, True)); try done.
  intros k t dirs nondirs s0 _ Hs0 _. apply post_bind. unfold emit. simpl.
  unfold pass1_body. apply post_bind.
  eapply post_mono; [| | |
    apply (for_each_post nondirs _ all_read all_read (λ _, True))];
    simpl; auto.
  - intros x s1 _ Hs1. by apply dedup_file_all_read.
  - apply (all_read_add s0 [EvScandir t]); [done|]. all_read_events.
Qed.

Lemma flatten_all_read (fuel : nat) (s : state) :
  all_read s →
  post (λ _, all_read) all_read (λ _, True) (flatten E fuel root s).
Proof.
  intros Hs. unfold flatten.
  apply (walk_topdown_post E all_read _ _ (λ _ _, True)); try done.
  intros k t dirs nondirs s0 _ Hs0 _. apply post_bind. unfold emit. simpl.
  assert (all_read (log_add s0 [EvScandir t])) as Hs1
    by (apply all_read_add; [done|]; all_read_events).
  unfold pass2_body.
  case_bool_decide; [done|]. case_bool_decide; [done|].
  destruct (is_within t (quarantine root)); [done|].
  apply post_bind.
  eapply post_mono; [| | |
    apply (for_each_post nondirs _ all_read all_read (λ _, True))];
    simpl; auto.
  intros x s1 _ Hs2.
  pose proof (flatten_file_step E root (quarantine root) t x s1) as Hst.
  remember (flatten_file E root (quarantine root) t x s1) as o eqn:Ho.
  destruct Hst; simpl; try done.
  - apply (all_read_add s1 [EvMove (t ++ [x]) (root ++ [x0])]); [done|].
    all_read_events. intros [y Hy]. by apply not_quarantine_child in Hy.
  - apply all_read_add; [done|].
    all_read_events. intros [y Hy]. by apply not_quarantine_child in Hy.
Qed.

Lemma prune_all_read (fuel : nat) (s : state) :
  all_read s →
  post (λ _, all_read) all_read (λ _, True) (prune E fuel root s).
Proof.
  intros Hs. unfold prune.
  apply (walk_bottomup_post E all_read _ _ (λ _ _, True)); try done.
  - intros k t dirs nondirs s0 _ Hs0 _. unfold emit. simpl. split; [|done].
    apply (all_read_add s0 [EvScandir t]); [done|]. all_read_events.
  - intros k t dirs nondirs s0 _ Hs0.
    pose proof (pass3_body_step E root (quarantine root) t dirs nondirs s0) as Hst.
    remember (pass3_body E root (quarantine root) t dirs nondirs s0) as o eqn:Ho.
    destruct Hst; simpl; try done.
    + apply (all_read_add s0 [EvRmdir t]); [done|]. all_read_events.
    + apply all_read_add; [done|]. all_read_events.
Qed.

Lemma run_all_read (fs : gmap (list string) node) :
  post (λ _, all_read) all_read (λ _, True) (run E root fs).
Proof.
  unfold run, main. apply post_bind. simpl.
  destruct (isdir fs root); simpl; [|by constructor].
  apply post_bind.
  assert (post (λ _, all_read) all_read (λ _, True)
            (makedirs (quarantine root) (initial fs))) as Hmk.
  { unfold makedirs. simpl.
    destruct (fs !! quarantine root) as [[c|]|]; simpl; try by constructor.
    destruct (isdir fs (dirname (quarantine root))); simpl; [|done].
    all_read_events. }
  eapply post_mono; [| | |exact Hmk]; simpl; auto.
  intros _ s1 Hs1. apply post_bind. unfold put_seen. simpl.
  apply post_bind.
  eapply post_mono; [| | |apply deduplicate_all_read; exact Hs1]; simpl; auto.
  intros _ s2 Hs2. apply post_bind.
  eapply post_mono; [| | |apply flatten_all_read; exact Hs2]; simpl; auto.
  intros _ s3 Hs3. apply post_bind.
  eapply post_mono; [| | |apply prune_all_read; exact Hs3]; simpl; auto.
Qed.
End ReadsFirst.

(** X11.  In every run, each digest recorded is of a file that could be
    read, and each move into [_duplicates], done or failed, is of a file
    that could be read: a file that cannot be read is never taken for a
    duplicate. *)
Theorem unreadable_never_duplicate (E : env) (root : list string)
    (fs : gmap (list string) node) :
  Forall (reads_first E root) (st_log (final_state (run E root fs))).
Proof.
  pose proof (run_all_read E root fs) as H.
  destruct (run E root fs) as [n s|e s|s] eqn:Hrun; simpl in *;
    [exact H|exact H|].
  by apply run_not_stuck in Hrun.
Qed.

(** ** Part XXI: which copy stays *)

Section RootCopy.
Context (E : env) (root : list string) (n c : string).

(** The file [n] of the root is in place. *)
Definition in_place (s : state) : Prop :=
  st_fs s !! (root ++ [n]) = Some (File c).

Lemma in_place_log_add (s : state) (l : list event) :
  in_place s → in_place (log_add s l).
Proof. done. Qed.

Lemma in_place_move (s : state) (src dst : list string) (d : string)
    (seen : gmap string (list string)) (l : list event) :
  in_place s → src ≠ root ++ [n] → st_fs s !! dst = None →
  in_place (State (<[dst := File d]> (delete src (st_fs s))) seen l).
Proof.
  unfold in_place. intros Hs Hsrc Hdst. simpl.
  rewrite lookup_insert_ne by congruence.
  by rewrite lookup_delete_ne.
Qed.

Lemma dedup_file_in_place (top : list string) (m : string) (s : state) :
  in_place s → top ++ [m] ≠ root ++ [n] →
  post (λ _, in_place) (λ _, True) (λ _, True)
       (dedup_file E (quarantine root) top m s).
Proof.
  intros Hs Hne.
  pose proof (dedup_file_step E (quarantine root) top m s) as Hst.
  remember (dedup_file E (quarantine root) top m s) as o eqn:Ho.
  destruct Hst; simpl; try done.
  by apply in_place_move.
Qed.

Lemma below_root_ne (top : list string) (m : string) :
  root `prefix_of` top → top ≠ root → top ++ [m] ≠ root ++ [n].
Proof. intros _ Hne Heq. by apply app_inj_tail in Heq as [? _]. Qed.

(** Pass 1 below the root. *)
Lemma deduplicate_below_in_place (fuel : nat) (top : list string) (s : state) :
  root `prefix_of` top → top ≠ root → in_place s →
  post (λ _, in_place) (λ _, True) (λ _, True)
       (walk_topdown E fuel (pass1_body E (quarantine root)) top s).
Proof.
  intros Hr Hne Hs.
  apply (walk_topdown_post E in_place _ _
           (λ _ t, root `prefix_of` t ∧ t ≠ root)); try done.
  intros k t dirs nondirs s0 [Hrt Hnt] Hs0 _. apply post_bind. unfold emit. simpl.
  unfold pass1_body. apply post_bind.
  eapply post_mono; [| | |
    apply (for_each_post nondirs _ in_place (λ _, True) (λ _, True))];
    simpl; auto.
  - intros _ s1 Hs1. split; [done|]. intros d _. split; [by apply prefix_app_r|].
    intros Heq. apply prefix_length in Hrt. apply (f_equal length) in Heq.
    rewrite length_app in Heq. simpl in Heq. lia.
  - intros x s1 _ Hs1. apply dedup_file_in_place; [done|].
    by apply below_root_ne.
Qed.

(** Pass 2 and pass 3. *)
Lemma flatten_in_place (fuel : nat) (s : state) :
  in_place s →
  post (λ _, in_place) (λ _, True) (λ _, True) (flatten E fuel root s).
Proof.
  intros Hs. unfold flatten.
  apply (walk_topdown_post E in_place _ _ (λ _ _, True)); try done.
  intros k t dirs nondirs s0 _ Hs0 _. apply post_bind. unfold emit. simpl.
  unfold pass2_body.
  case_bool_decide; [done|]. case_bool_decide; [done|].
  destruct (is_within t (quarantine root)); [done|].
  apply post_bind.
  eapply post_mono; [| | |
    apply (for_each_post nondirs _ in_place (λ _, True) (λ _, True))];
    simpl; auto.
  intros x s1 _ Hs1.
  pose proof (flatten_file_step E root (quarantine root) t x s1) as Hst.
  remember (flatten_file E root (quarantine root) t x s1) as o eqn:Ho.
  destruct Hst; simpl; try done.
  apply in_place_move; [done| |done].
  intros Heq. by apply app_inj_tail in Heq as [? _].
Qed.

Lemma prune_in_place (fuel : nat) (s : state) :
  in_place s →
  post (λ _, in_place) (λ _, True) (λ _, True) (prune E fuel root s).
Proof.
  intros Hs. unfold prune.
  apply (walk_bottomup_post E in_place _ _ (λ _ _, True)); try done.
  intros k t dirs nondirs s0 _ Hs0.
  pose proof (pass3_body_step E root (quarantine root) t dirs nondirs s0) as Hst.
  remember (pass3_body E root (quarantine root) t dirs nondirs s0) as o eqn:Ho.
  destruct Hst; simpl; try done.
  unfold in_place in *. simpl. rewrite lookup_delete_ne; [done|]. congruence.
Qed.

(** No other file of the root has the digest of [n]. *)
Definition alone_in_root (fs : gmap (list string) node) : Prop :=
  ∀ m c', m ≠ n → fs !! (root ++ [m]) = Some (File c') →
          sha256 E c' ≠ sha256 E c.

(** Pass 1 in the root: the files of the root come before its
    subfolders, so [n] is the first of its digest. *)
Lemma deduplicate_in_place (fuel : nat) (s : state) :
  st_seen s = ∅ → in_place s → alone_in_root (st_fs s) →
  post (λ _, in_place) (λ _, True) (λ _, True) (deduplicate E fuel root s).
Proof.
  intros Hseen Hs Halone. unfold deduplicate.
  destruct fuel as [|fuel].
  { simpl. by destruct (scandir E (st_fs s) root) as [[dirs nondirs]|]. }
  destruct (scandir E (st_fs s) root) as [[dirs nondirs]|] eqn:Hsc.
  2:{ simpl. by rewrite Hsc. }
  rewrite (walk_topdown_S E fuel _ root dirs nondirs s Hsc).
  apply scandir_Some in Hsc as (_ & _ & _ & _ & Hnd).
  apply post_bind. unfold emit. simpl. apply post_bind. unfold pass1_body.
  apply post_bind.
  eapply post_mono; [| | |
    apply (for_each_pre_post (dedup_file E (quarantine root) root)
             (λ t, in_place t
                   ∧ ∀ h p0, st_seen t !! h = Some p0 →
                       ∃ m c0, p0 = root ++ [m]
                               ∧ st_fs s !! (root ++ [m]) = Some (File c0)
                               ∧ sha256 E c0 = h)
             (λ x t, st_fs t !! (root ++ [x]) = st_fs s !! (root ++ [x])
                     ∧ ∀ h, st_seen t !! h ≠ Some (root ++ [x]))
             (λ _, True) (λ _, True) nondirs Hnd)]; simpl; auto.
  - intros _ s2 [Hs2 _].
    eapply post_mono; [| | |
      apply (for_each_post _ _ in_place (λ _, True) (λ _, True))];
      simpl; auto.
    intros d t Hd Ht. apply deduplicate_below_in_place; [|apply snoc_ne_self|done].
    by apply prefix_app_r.
  - intros x t Hx [Ht Hsn] [Hpx Hpn].
    pose proof (dedup_file_step E (quarantine root) root x t) as Hst.
    remember (dedup_file E (quarantine root) root x t) as o eqn:Ho.
    destruct Hst as [Hin|Hnq|c' Hnq Hc' Hnone|c' y Hnq Hc' Hsome Hfree _
                     |c' y Hnq Hc' Hsome|c' Hnq Hc' Hsome _]; simpl; try done.
    + split; [split; [done|]|].
      * intros h p0. destruct (decide (h = sha256 E c')) as [->|Hne].
        -- rewrite lookup_insert_eq. intros [= <-]. exists x, c'.
           split; [done|]. split; [|done]. congruence.
        -- rewrite lookup_insert_ne by done. apply Hsn.
      * intros y _ Hyx [Hy1 Hy2]. split; [done|]. intros h.
        destruct (decide (h = sha256 E c')) as [->|Hne].
        -- rewrite lookup_insert_eq. intros [= Heq].
           apply app_inj_tail in Heq as [_ ->]. done.
        -- rewrite lookup_insert_ne by done. apply Hy2.
    + destruct (decide (x = n)) as [->|Hxn].
      { exfalso. unfold in_place in Ht. rewrite Ht in Hc'. injection Hc' as <-.
        destruct Hsome as [p0 Hp0].
        destruct (Hsn _ _ Hp0) as (m & c0 & -> & Hm & Hh).
        destruct (decide (m = n)) as [->|Hmn]; [by apply (Hpn (sha256 E c))|].
        by apply (Halone m c0). }
      split; [split; [|done]|].
      * apply in_place_move; [done| |done]. intros Heq.
        by apply app_inj_tail in Heq as [_ ?].
      * intros z _ Hzx [Hz1 Hz2]. split; [|done].
        rewrite lookup_insert_ne by (symmetry; apply not_quarantine_child).
        rewrite lookup_delete_ne; [done|]. intros Heq.
        apply app_inj_tail in Heq as [_ ?]. congruence.
  - split; [done|]. intros h p0. by rewrite Hseen, lookup_empty.
  - intros x _. split; [done|]. intros h. by rewrite Hseen, lookup_empty.
Qed.
End RootCopy.

(** X12.  A regular file directly in the root whose digest no other
    file directly in the root has is where it was, with its bytes, after
    a run that returns: the files of the root are met before those of
    its subfolders, so of a file of the root and its copies further down
    it is the file of the root that stays. *)
Theorem root_copy_stays (E : env) (root : list string)
    (fs : gmap (list string) node) (s' : state) (n c : string) :
  run E root fs = Done 0%Z s' →
  fs !! (root ++ [n]) = Some (File c) →
  (∀ m c', m ≠ n → fs !! (root ++ [m]) = Some (File c') →
           sha256 E c' ≠ sha256 E c) →
  st_fs s' !! (root ++ [n]) = Some (File c).
Proof.
  intros Hrun Hn Halone.
  assert (fs !! root = Some Dir) as Hroot.
  { apply run_result in Hrun. destruct (isdir fs root) eqn:Hd.
    - by apply isdir_true in Hd.
    - by destruct Hrun. }
  destruct (main_stages E root fs _ _ Hrun Hroot)
    as (s1 & s2 & s3 & Hs1 & H1 & H2 & H3 & _).
  destruct (stage1_traced root fs s1 Hroot Hs1) as (_ & Hq1 & _ & Hseen1 & Hsame).
  assert (∀ m c', st_fs s1 !! (root ++ [m]) = Some (File c') →
                  root ++ [m] ≠ quarantine root) as Hnq.
  { intros m c' Hm Heq. rewrite Heq in Hm. congruence. }
  assert (in_place root n c s1) as Hp1.
  { unfold in_place. rewrite Hsame; [done|]. intros Heq. rewrite Heq in Hn.
    destruct Hs1 as [[Hq _]|[Hq _]]; congruence. }
  assert (alone_in_root E root n c (st_fs s1)) as Ha1.
  { intros m c' Hm Hc'. apply (Halone m c' Hm).
    rewrite <- Hsame; [done|]. by apply (Hnq m c'). }
  pose proof (deduplicate_in_place E root n c (walk_fuel fs) s1 Hseen1 Hp1 Ha1)
    as Hp2.
  rewrite H1 in Hp2. simpl in Hp2.
  pose proof (flatten_in_place E root n c (walk_fuel fs) s2 Hp2) as Hp3.
  rewrite H2 in Hp3. simpl in Hp3.
  pose proof (prune_in_place E root n c (walk_fuel fs) s3 Hp3) as Hp4.
  rewrite H3 in Hp4. exact Hp4.
Qed.

Lemma root_copy_stays_witness :
  st_fs (final_state (run plain_env ["r"] (crowded ∅))) !! (["r"] ++ ["a.txt"])
  = Some (File "x").
Proof.
  assert (∀ k : list string,
            is_Some ((∅ : gmap (list string) node) !! k) →
            ∃ x, k = ["r"; "_duplicates"; x]) as Hkeys.
  { intros k [nd Hk]. by rewrite lookup_empty in Hk. }
  apply (root_copy_stays plain_env ["r"] (crowded ∅)).
  - vm_compute. reflexivity.
  - vm_compute. reflexivity.
  - intros m c' Hm Hc'.
    apply (crowded_root_entry ∅ Hkeys m (File c')) in Hc'.
    destruct Hc' as [[-> _]|[[_ Hc']|[_ Hc']]]; done.
Defined.
